(** * Analytic curve engine of the math-equation-visualizer

    A shallow embedding of the numeric functions of [utils/math_utils.py]
    and of the per-family modules ([linear.py], [quadratic.py], [cubic.py],
    [ellipse.py], [trigonometric.py]), followed by the properties of the
    specification that concern them.

    Numbers.  The specification speaks of real parameters, so a Python
    [float] is a real number [R] here: rounding, overflow, [nan] and the
    infinities of IEEE arithmetic are outside the model, except for the one
    literal [float("inf")] that [trig_properties] stores in its bundle.

    Exceptions.  A function that may raise returns a [result]; the division
    of Python floats raises [ZeroDivisionError] on a zero divisor and is the
    only arithmetic operation that can raise over the reals. *)

From Stdlib Require Import Reals Lra Lia List String Bool ZArith.
From Stdlib Require Import Sorting.Sorted Sorting.Permutation.
Import ListNotations.

Open Scope R_scope.

(** ** The Python runtime the code relies on *)

Inductive exn : Type :=
| ZeroDivisionError
| ValueError (msg : string)
| KeyError (key : string)
| IndexError
| TypeError.

Inductive result (A : Type) : Type :=
| Ret (a : A)
| Raise (e : exn).

Arguments Ret {A} a.
Arguments Raise {A} e.

Definition bind {A B : Type} (m : result A) (k : A -> result B) : result B :=
  match m with
  | Ret a => k a
  | Raise e => Raise e
  end.

Notation "x <- m ;; k" := (bind m (fun x => k))
  (at level 61, m at next level, right associativity).

Definition raises {A : Type} (m : result A) : Prop :=
  exists e, m = Raise e.

Definition returns {A : Type} (m : result A) : Prop :=
  exists a, m = Ret a.

(** [x / y] on floats. *)
Definition py_div (x y : R) : result R :=
  if Req_dec_T y 0 then Raise ZeroDivisionError else Ret (x / y).

(** [np.sqrt].  On a negative argument numpy answers [nan] with a warning and
    does not raise; the lemmas [*_sqrt_domain] below show that no call site
    reaches that region. *)
Definition np_sqrt (x : R) : R := sqrt x.

(** [sorted] on a list of floats, ascending; insertion into a sorted prefix
    keeps equal keys in their order, as Python's stable sort does. *)
Fixpoint insert_sorted (x : R) (l : list R) : list R :=
  match l with
  | [] => [x]
  | y :: l' => if Rlt_dec x y then x :: y :: l' else y :: insert_sorted x l'
  end.

Fixpoint sorted (l : list R) : list R :=
  match l with
  | [] => []
  | x :: l' => insert_sorted x (sorted l')
  end.

(** [np.linspace(start, stop, num)] with the default [endpoint=True]: [num]
    samples [start + i * step], [step = (stop - start) / (num - 1)], the last
    one overwritten by [stop] when [num > 1]; [num = 1] gives [[start]],
    [num = 0] the empty array and a negative [num] raises [ValueError]. *)
Definition linspace_samples (start stop : R) (n : nat) : list R :=
  let delta := stop - start in
  match n with
  | O => []
  | S O => [0 * delta + start]
  | S (S k as div) =>
      let step := delta / INR div in
      map (fun i => INR i * step + start) (seq 0 div) ++ [stop]
  end.

Definition np_linspace (start stop : R) (num : Z) : result (list R) :=
  if (num <? 0)%Z
  then Raise (ValueError "Number of samples must be non-negative")
  else Ret (linspace_samples start stop (Z.to_nat num)).

(** A complex number as numpy hands it back: [.real] and [.imag]. *)
Record complex : Type := Complex { real : R; imag : R }.

(** ** utils/math_utils.py *)

Definition safe_linspace (start end_ : R) (num : Z) : result (list R) :=
  let end_ := if Rge_dec start end_ then start + 1e-6 else end_ in
  np_linspace start end_ num.

(** The test [abs(r.imag) < 1e-8] of the comprehension. *)
Definition nearly_real (r : complex) : bool :=
  if Rlt_dec (Rabs (imag r)) 1e-8 then true else false.

Section RootFinding.

(** [np.roots]: all complex roots of the polynomial with the given
    coefficients (companion-matrix eigenvalues).  It belongs to numpy, not
    to this repository, and stays a parameter. *)
Variable np_roots : list R -> list complex.

Definition find_real_roots (coefficients : list R) : list R :=
  let roots := np_roots coefficients in
  let real_roots := map real (filter nearly_real roots) in
  sorted real_roots.

End RootFinding.

Definition polynomial_derivative (coeffs : list R) : list R :=
  let n := List.length coeffs in
  if (n <=? 1)%nat then [0]
  else map (fun i => nth i coeffs 0 * INR (n - 1 - i)) (seq 0 (n - 1)).

Definition quadratic_discriminant (a b c : R) : R :=
  b ^ 2 - 4 * a * c.

(** The first component of [quadratic_roots] is an f-string; its fixed text
    is the constructor and the floats it interpolates are the arguments. *)
Inductive nature : Type :=
| Constant_no_roots
| Linear_one_root
| Two_distinct_real_roots (D : R)
| One_repeated_real_root
| Two_complex_roots (re im_abs D : R).

Definition quadratic_roots (a b c : R) : result (nature * list R) :=
  if Rlt_dec (Rabs a) 1e-12 then
    if Rlt_dec (Rabs b) 1e-12 then Ret (Constant_no_roots, [])
    else r <- py_div (- c) b ;; Ret (Linear_one_root, [r])
  else
    let D := quadratic_discriminant a b c in
    if Rgt_dec D 0 then
      r1 <- py_div (- b + np_sqrt D) (2 * a) ;;
      r2 <- py_div (- b - np_sqrt D) (2 * a) ;;
      Ret (Two_distinct_real_roots D, sorted [r1; r2])
    else if Rlt_dec (Rabs D) 1e-10 then
      r <- py_div (- b) (2 * a) ;;
      Ret (One_repeated_real_root, [r])
    else
      re <- py_div (- b) (2 * a) ;;
      im <- py_div (np_sqrt (- D)) (2 * a) ;;
      Ret (Two_complex_roots re (Rabs im) D, []).

Definition quadratic_vertex (a b c : R) : result (R * R) :=
  if Rlt_dec (Rabs a) 1e-12 then Ret (0, c)
  else
    xv <- py_div (- b) (2 * a) ;;
    let yv := a * xv ^ 2 + b * xv + c in
    Ret (xv, yv).

(** ** Property bundles and figures *)

(** The values a property bundle holds. [VInf] is [float("inf")]. *)
Inductive value : Type :=
| VNone
| VBool (b : bool)
| VFloat (x : R)
| VInf
| VStr (s : string).

(** A Python [dict] with string keys, in insertion order. *)
Definition dict : Type := list (string * value).

Fixpoint dict_get (d : dict) (k : string) : option value :=
  match d with
  | [] => None
  | (k', v) :: d' => if String.eqb k k' then Some v else dict_get d' k
  end.

(** [k in d] *)
Definition dict_mem (k : string) (d : dict) : bool :=
  match dict_get d k with Some _ => true | None => false end.

(** [d[k] = v]: the entry of an existing key is overwritten where it stands,
    a new key goes to the end. *)
Fixpoint dict_set (d : dict) (k : string) (v : value) : dict :=
  match d with
  | [] => [(k, v)]
  | (k', v') :: d' =>
      if String.eqb k k' then (k', v) :: d' else (k', v') :: dict_set d' k v
  end.

(** What the plotting code puts into a figure, as far as the numbers go:
    a line trace with its samples, or a single marker with its symbol.
    Colours, titles, legends, shapes and layout are left out. *)
Inductive trace : Type :=
| Scatter_lines (xs ys : list R)
| Scatter_marker (x y : R) (symbol : string).

Record figure : Type := Figure {
  fig_data : list trace;
  fig_frames : list (list trace)
}.

Definition base_figure : figure := Figure [] [].

Definition add_trace (fig : figure) (t : trace) : figure :=
  Figure (fig_data fig ++ [t]) (fig_frames fig).

(** [d[k]] *)
Definition dict_getitem (d : dict) (k : string) : result value :=
  match dict_get d k with
  | Some v => Ret v
  | None => Raise (KeyError k)
  end.

(** A bundle entry used as a number in a comparison. *)
Definition as_float (v : value) : result R :=
  match v with
  | VFloat x => Ret x
  | _ => Raise TypeError
  end.

(** [l[i]] for a non-negative literal index. *)
Definition py_index (l : list R) (i : nat) : result R :=
  match nth_error l i with
  | Some v => Ret v
  | None => Raise IndexError
  end.

(** ** modules/linear.py *)

Definition linear_properties (m c : R) : result dict :=
  let props := [ ("slope", VFloat m);
                 ("y_intercept", VFloat c);
                 ("x_intercept", VNone);
                 ("parallel_to_x", VBool false);
                 ("is_vertical", VBool false) ]%string in
  if Rlt_dec (Rabs m) 1e-12 then
    Ret (dict_set props "parallel_to_x" (VBool true))
  else
    q <- py_div (- c) m ;;
    Ret (dict_set props "x_intercept" (VFloat q)).

(** ** modules/cubic.py *)

Definition cubic_inflection (a b : R) : result (option R) :=
  if Rlt_dec (Rabs a) 1e-12 then Ret None
  else q <- py_div (- b) (3 * a) ;; Ret (Some q).

(** ** modules/ellipse.py *)

Definition ellipse_properties (a b : R) : result dict :=
  if orb (if Rlt_dec (Rabs a) 1e-9 then true else false)
         (if Rlt_dec (Rabs b) 1e-9 then true else false)
  then Ret [ ("error", VStr "Semi-axes must be non-zero") ]%string
  else
    let major := Rmax (Rabs a) (Rabs b) in
    let minor := Rmin (Rabs a) (Rabs b) in
    let area := PI * Rabs a * Rabs b in
    ecc <- (if Rgt_dec major 0
            then q <- py_div minor major ;; Ret (np_sqrt (1 - q ^ 2))
            else Ret 0) ;;
    let c := np_sqrt (Rmax (Rabs a ^ 2 - Rabs b ^ 2) 0) in
    Ret [ ("semi_major", VFloat major);
          ("semi_minor", VFloat minor);
          ("area", VFloat area);
          ("eccentricity", VFloat ecc);
          ("focal_distance", VFloat c);
          ("major_axis_length", VFloat (2 * major));
          ("minor_axis_length", VFloat (2 * minor));
          ("major_axis_along",
           VStr (if Rge_dec (Rabs a) (Rabs b) then "x-axis" else "y-axis")) ]%string.

Definition parametric_ellipse (a b : R) (num : Z) : result (list R * list R) :=
  t <- np_linspace 0 (2 * PI) num ;;
  Ret (map (fun ti => a * cos ti) t, map (fun ti => b * sin ti) t).

Definition add_markers (fig : figure) (pts : list (R * R)) (symbol : string)
  : figure :=
  fold_left (fun f p => add_trace f (Scatter_marker (fst p) (snd p) symbol))
            pts fig.

Definition plot_ellipse (a b : R) : result figure :=
  xy <- parametric_ellipse a b 800 ;;
  let x := fst xy in
  let y := snd xy in
  let fig := base_figure in
  x0 <- py_index x 0 ;;
  y0 <- py_index y 0 ;;
  let fig := add_trace fig (Scatter_lines (x ++ [x0]) (y ++ [y0])) in
  props <- ellipse_properties a b ;;
  if dict_mem "error" props then Ret fig
  else
    let vertices := [(a, 0); (- a, 0); (0, b); (0, - b)] in
    let fig := add_markers fig vertices "diamond" in
    c <- dict_getitem props "focal_distance" ;;
    c <- as_float c ;;
    let fig :=
      if Rgt_dec c 1e-6 then
        let foci := if Rge_dec (Rabs a) (Rabs b)
                    then [(c, 0); (- c, 0)]
                    else [(0, c); (0, - c)] in
        add_markers fig foci "circle-open"
      else fig in
    Ret fig.

(** A focus is a marker drawn with the open circle. *)
Definition is_focus (t : trace) : bool :=
  match t with
  | Scatter_marker _ _ symbol => String.eqb symbol "circle-open"
  | Scatter_lines _ _ => false
  end.

(** ** modules/trigonometric.py *)

Definition np_sin (x : list R) : list R := map sin x.
Definition np_cos (x : list R) : list R := map cos x.
Definition np_zeros_like (x : list R) : list R := map (fun _ => 0) x.

(** [A * y] for a float [A] and an array [y] *)
Definition scale (A : R) (y : list R) : list R := map (Rmult A) y.

Definition compute_trig (A B C : R) (func : string) (x : list R)
  : result (list R) :=
  if Req_dec_T B 0 then Ret (np_zeros_like x)
  else
    let arg := map (fun xi => B * xi + C) x in
    if String.eqb func "sin" then Ret (scale A (np_sin arg))
    else if String.eqb func "cos" then Ret (scale A (np_cos arg))
    else Raise (ValueError ("Unknown trig function: " ++ func)).

Definition trig_properties (A B C : R) : result dict :=
  if Rlt_dec (Rabs B) 1e-12 then
    Ret [ ("amplitude", VFloat (Rabs A));
          ("period", VInf);
          ("frequency", VFloat 0);
          ("phase_shift", VFloat 0);
          ("angular_freq", VFloat 0) ]%string
  else
    period <- py_div (2 * PI) (Rabs B) ;;
    frequency <- py_div (Rabs B) (2 * PI) ;;
    phase_shift <- py_div (- C) B ;;
    Ret [ ("amplitude", VFloat (Rabs A));
          ("angular_freq", VFloat B);
          ("period", VFloat period);
          ("frequency", VFloat frequency);
          ("phase_shift", VFloat phase_shift) ]%string.

Definition _animated_plot (A B C : R) (func : string) (x : list R)
  : result figure :=
  let fn := if String.eqb func "sin" then np_sin else np_cos in
  let n_frames := 60%Z in
  phase_sweep <- np_linspace 0 (2 * PI) n_frames ;;
  let frames :=
    map (fun phi =>
           let y_frame := scale A (fn (map (fun xi => B * xi + C + phi) x)) in
           [Scatter_lines x y_frame])
        phase_sweep in
  let y0 := scale A (fn (map (fun xi => B * xi + C) x)) in
  Ret (Figure [Scatter_lines x y0] frames).

(** ** The rest of utils/math_utils.py and utils/plot_utils.py *)

(** [np.polyval(p, x)] at one point: [y = 0; for pv in p: y = y * x + pv]. *)
Definition horner (p : list R) (x : R) : R :=
  fold_left (fun y pv => y * x + pv) p 0.

Definition np_polyval (p : list R) (x : list R) : list R :=
  map (horner p) x.

Definition polynomial_value (coeffs : list R) (x : list R) : list R :=
  np_polyval coeffs x.

(** [all(c == 0 for c in l)] *)
Definition all_zero (l : list R) : bool :=
  forallb (fun c => if Req_dec_T c 0 then true else false) l.

(** The chained comparison [lo <= v <= hi]. *)
Definition in_range (lo v hi : R) : bool :=
  if Rle_dec lo v then (if Rle_dec v hi then true else false) else false.

Section CriticalPoints.

Variable np_roots : list R -> list complex.

Definition find_critical_points (coeffs : list R) (x_range : R * R) : list R :=
  let deriv := polynomial_derivative coeffs in
  if all_zero deriv then []
  else
    let roots := find_real_roots np_roots deriv in
    filter (fun r => in_range (fst x_range) r (snd x_range)) roots.

Definition find_inflection_points (coeffs : list R) (x_range : R * R) : list R :=
  let deriv1 := polynomial_derivative coeffs in
  let deriv2 := polynomial_derivative deriv1 in
  if all_zero deriv2 then []
  else
    let roots := find_real_roots np_roots deriv2 in
    filter (fun r => in_range (fst x_range) r (snd x_range)) roots.

End CriticalPoints.

(** [np.clip(y, lo, hi)]: [minimum(maximum(y, lo), hi)], entry by entry. *)
Definition np_clip (y : list R) (lo hi : R) : list R :=
  map (fun v => Rmin (Rmax v lo) hi) y.

Definition clip_y (y : list R) (y_max : R) : list R :=
  np_clip y (- y_max) y_max.

(** The default [y_max] of [clip_y]. *)
Definition clip_y_default : R := 1e6.

Definition add_curve (fig : figure) (x y : list R) : figure :=
  add_trace fig (Scatter_lines x y).

Definition add_scatter_point (fig : figure) (x y : R) (symbol : string)
  : figure :=
  add_trace fig (Scatter_marker x y symbol).

(** A [for] loop whose body may raise. *)
Fixpoint for_each {A S : Type} (l : list A) (body : S -> A -> result S) (s : S)
  : result S :=
  match l with
  | [] => Ret s
  | a :: l' => s' <- body s a ;; for_each l' body s'
  end.

(** ** The curves and figures of the family modules *)

Definition compute_linear (m c : R) (x : list R) : list R :=
  map (fun xi => m * xi + c) x.

Definition plot_linear (m c : R) (x_range : R * R) : result figure :=
  x <- safe_linspace (fst x_range) (snd x_range) 1000 ;;
  let y := compute_linear m c x in
  let fig := add_curve base_figure x y in
  props <- linear_properties m c ;;
  let fig := add_scatter_point fig 0 c "diamond" in
  v <- dict_getitem props "x_intercept" ;;
  match v with
  | VNone => Ret fig
  | _ =>
      xi <- as_float v ;;
      if in_range (fst x_range) xi (snd x_range)
      then Ret (add_scatter_point fig xi 0 "x")
      else Ret fig
  end.

Definition compute_quadratic (a b c : R) (x : list R) : list R :=
  map (fun xi => a * xi ^ 2 + b * xi + c) x.


Definition compute_cubic (a b c d : R) (x : list R) : list R :=
  map (fun xi => a * xi ^ 3 + b * xi ^ 2 + c * xi + d) x.

Definition cubic_derivative_coeffs (a b c : R) : R * R * R :=
  (3 * a, 2 * b, c).

Section PolynomialFigures.

Variable np_roots : list R -> list complex.

Definition plot_cubic (a b c d : R) (x_range : R * R) : result figure :=
  x <- safe_linspace (fst x_range) (snd x_range) 1000 ;;
  let y := clip_y (compute_cubic a b c d x) clip_y_default in
  let fig := add_curve base_figure x y in
  let '(da, db, dc) := cubic_derivative_coeffs a b c in
  let y_deriv :=
    clip_y (map (fun xi => da * xi ^ 2 + db * xi + dc) x) clip_y_default in
  let fig := add_trace fig (Scatter_lines x y_deriv) in
  let coeffs := [a; b; c; d] in
  let crit := find_critical_points np_roots coeffs x_range in
  fig <- for_each crit
           (fun fig xc =>
              yc <- py_index (compute_cubic a b c d [xc]) 0 ;;
              Ret (add_scatter_point fig xc yc "triangle-up"))
           fig ;;
  xi <- cubic_inflection a b ;;
  match xi with
  | Some xi =>
      if in_range (fst x_range) xi (snd x_range) then
        yi <- py_index (compute_cubic a b c d [xi]) 0 ;;
        Ret (add_scatter_point fig xi yi "diamond")
      else Ret fig
  | None => Ret fig
  end.

Definition plot_polynomial (coeffs : list R) (x_range : R * R) : result figure :=
  x <- safe_linspace (fst x_range) (snd x_range) 1200 ;;
  let y := clip_y (polynomial_value coeffs x) clip_y_default in
  let fig := add_curve base_figure x y in
  let roots := find_real_roots np_roots coeffs in
  for_each roots
    (fun fig r =>
       if in_range (fst x_range) r (snd x_range)
       then Ret (add_scatter_point fig r 0 "x")
       else Ret fig)
    fig.

End PolynomialFigures.

(** The amplitude lines that [plot_trig] draws with [add_hline] are layout
    shapes and have no place in [figure]. *)
Definition plot_trig (A B C : R) (func : string) (x_range : R * R)
           (show_animation : bool) : result figure :=
  x <- safe_linspace (fst x_range) (snd x_range) 1000 ;;
  y <- compute_trig A B C func x ;;
  if show_animation then _animated_plot A B C func x
  else
    let fig := add_curve base_figure x y in
    props <- trig_properties A B C ;;
    ps <- dict_getitem props "phase_shift" ;;
    ps <- as_float ps ;;
    if in_range (fst x_range) ps (snd x_range) then
      y_ps_arr <- compute_trig A B C func [ps] ;;
      y_ps <- py_index y_ps_arr 0 ;;
      Ret (add_trace fig (Scatter_marker ps y_ps "triangle-right"))
    else Ret fig.

(** ** Reference values *)

(** The phase of frame [i]: 60 values evenly spaced over [[0, 2 pi]]. *)
Definition phi (i : nat) : R := INR i * (2 * PI / 59).

(** A root finder for polynomials of degree at most one, enough to run
    [find_real_roots] on concrete coefficients. *)
Definition linear_np_roots (coefficients : list R) : list complex :=
  match coefficients with
  | [a; b] => if Req_dec_T a 0 then [] else [Complex (- b / a) 0]
  | _ => []
  end.

(** The polynomial written out term by term: the sum of
    [coeffs[i] * x ^ (n - 1 - i)] over the [n] coefficients. *)
Definition power_sum (coeffs : list R) (x : R) : R :=
  fold_right Rplus 0
    (map (fun i => nth i coeffs 0 * x ^ (List.length coeffs - 1 - i))
         (seq 0 (List.length coeffs))).

(** * Properties *)

(** ** The runtime *)

Lemma py_div_ok (x y : R) : y <> 0 -> py_div x y = Ret (x / y).
Proof.
  intros Hy. unfold py_div. destruct (Req_dec_T y 0) as [E | _]; [contradiction | reflexivity].
Qed.

Lemma Rabs_big_nonzero (x t : R) : 0 < t -> ~ Rabs x < t -> x <> 0.
Proof.
  intros Ht Hx E. apply Hx. rewrite E, Rabs_R0. exact Ht.
Qed.

Lemma Rabs_lt_iff (x t : R) : Rabs x < t <-> - t < x < t.
Proof.
  unfold Rabs. destruct (Rcase_abs x); split; intros; lra.
Qed.

(** Unfolds one guarded division whose divisor is known to be non-zero. *)
Ltac div_ok H := rewrite (py_div_ok _ _ H); cbn [bind].

Lemma insert_sorted_perm (x : R) (l : list R) :
  Permutation (x :: l) (insert_sorted x l).
Proof.
  induction l as [| y l IH]; cbn.
  - apply Permutation_refl.
  - destruct (Rlt_dec x y).
    + apply Permutation_refl.
    + eapply perm_trans; [apply perm_swap |]. apply perm_skip, IH.
Qed.

Lemma sorted_perm (l : list R) : Permutation l (sorted l).
Proof.
  induction l as [| x l IH]; cbn.
  - constructor.
  - eapply perm_trans; [apply perm_skip, IH | apply insert_sorted_perm].
Qed.

Lemma insert_sorted_hd (x a : R) (l : list R) :
  a <= x -> HdRel Rle a l -> HdRel Rle a (insert_sorted x l).
Proof.
  intros Hax Hl. destruct l as [| y l]; cbn.
  - constructor. exact Hax.
  - destruct (Rlt_dec x y); constructor.
    + exact Hax.
    + inversion Hl; assumption.
Qed.

Lemma insert_sorted_Sorted (x : R) (l : list R) :
  Sorted Rle l -> Sorted Rle (insert_sorted x l).
Proof.
  induction 1 as [| y l Hs IH Hhd]; cbn.
  - repeat constructor.
  - destruct (Rlt_dec x y) as [Hlt | Hge].
    + constructor; [constructor; assumption | constructor; lra].
    + constructor; [exact IH |]. apply insert_sorted_hd; [lra | exact Hhd].
Qed.

Lemma sorted_Sorted (l : list R) : Sorted Rle (sorted l).
Proof.
  induction l as [| x l IH]; cbn.
  - constructor.
  - apply insert_sorted_Sorted, IH.
Qed.

Lemma sorted_pair (x y : R) :
  sorted [x; y] = if Rlt_dec x y then [x; y] else [y; x].
Proof. reflexivity. Qed.

(** ** polynomial_derivative *)

Lemma polynomial_derivative_long (coeffs : list R) :
  (2 <= List.length coeffs)%nat ->
  polynomial_derivative coeffs =
  map (fun i => nth i coeffs 0 * INR (List.length coeffs - 1 - i))
      (seq 0 (List.length coeffs - 1)).
Proof.
  intros Hn. unfold polynomial_derivative.
  destruct (Nat.leb_spec (List.length coeffs) 1) as [Hle | _]; [lia | reflexivity].
Qed.

(** C8.  On a coefficient list of length [n >= 2] the derivative has length
    [n - 1] and its entry [i] is [coeffs[i] * (n - 1 - i)]; on a list of
    length at most 1 it is [[0.0]]; the second derivative of [x^3] is
    [[6; 0]]. *)
Theorem polynomial_derivative_spec (coeffs : list R) :
  let n := List.length coeffs in
  ((2 <= n)%nat ->
   List.length (polynomial_derivative coeffs) = (n - 1)%nat /\
   forall i, (i < n - 1)%nat ->
     nth i (polynomial_derivative coeffs) 0 = nth i coeffs 0 * INR (n - 1 - i)) /\
  ((n <= 1)%nat -> polynomial_derivative coeffs = [0]) /\
  polynomial_derivative (polynomial_derivative [1; 0; 0; 0]) = [6; 0].
Proof.
  intros n. split; [| split].
  - intros Hn. rewrite (polynomial_derivative_long _ Hn).
    rewrite length_map, length_seq. split; [reflexivity |].
    intros i Hi.
    set (f := fun j => nth j coeffs 0 * INR (List.length coeffs - 1 - j)).
    rewrite (nth_indep _ 0 (f (List.length coeffs)))
      by (rewrite length_map, length_seq; exact Hi).
    rewrite map_nth, seq_nth by exact Hi. reflexivity.
  - intros Hn. unfold polynomial_derivative.
    destruct (Nat.leb_spec (List.length coeffs) 1) as [_ | Hgt]; [reflexivity | ].
    subst n. lia.
  - cbn. repeat f_equal; lra.
Qed.

Lemma polynomial_derivative_spec_witness :
  List.length (polynomial_derivative [2; 3; 5]) = 2%nat /\
  nth 0 (polynomial_derivative [2; 3; 5]) 0 = 2 * INR 2 /\
  polynomial_derivative [7] = [0].
Proof.
  destruct (polynomial_derivative_spec [2; 3; 5]) as [Hlong _].
  destruct (polynomial_derivative_spec [7]) as [_ [Hshort _]].
  destruct (Hlong ltac:(cbn; lia)) as [Hlen Hnth].
  split; [exact Hlen |]. split.
  - exact (Hnth 0%nat ltac:(cbn; lia)).
  - apply Hshort. cbn. lia.
Defined.

(** ** quadratic_roots *)

Lemma quadratic_root_formula (a b c s r : R) :
  a <> 0 -> s * s = quadratic_discriminant a b c ->
  (r = (- b + s) / (2 * a) \/ r = (- b - s) / (2 * a)) ->
  a * r ^ 2 + b * r + c = 0.
Proof.
  unfold quadratic_discriminant. intros Ha Hs Hr.
  apply Rmult_eq_reg_l with (4 * a); [| lra].
  assert (E : 2 * a * r = - b + s \/ 2 * a * r = - b - s)
    by (destruct Hr as [-> | ->]; [left | right]; field; exact Ha).
  destruct E as [E | E]; nra.
Qed.

(** Positive discriminant, whatever its size: two roots, the smaller first. *)
Lemma quadratic_roots_positive_D (a b c : R) :
  ~ Rabs a < 1e-12 -> quadratic_discriminant a b c > 0 ->
  exists lo hi,
    quadratic_roots a b c =
      Ret (Two_distinct_real_roots (quadratic_discriminant a b c), [lo; hi]) /\
    lo < hi /\
    Permutation [ (- b + sqrt (quadratic_discriminant a b c)) / (2 * a);
                  (- b - sqrt (quadratic_discriminant a b c)) / (2 * a) ]
                [lo; hi].
Proof.
  intros Ha HD.
  assert (Ha0 : a <> 0) by (apply (Rabs_big_nonzero a 1e-12); [lra | exact Ha]).
  assert (H2a : 2 * a <> 0) by lra.
  pose proof (sqrt_lt_R0 _ HD) as Hs.
  unfold quadratic_roots.
  destruct (Rlt_dec (Rabs a) 1e-12) as [? | _]; [contradiction |].
  cbv zeta. destruct (Rgt_dec (quadratic_discriminant a b c) 0) as [_ | ?];
    [| contradiction].
  unfold np_sqrt. do 2 div_ok H2a. rewrite sorted_pair.
  set (s := sqrt (quadratic_discriminant a b c)) in *.
  assert (Hne : (- b + s) / (2 * a) <> (- b - s) / (2 * a)).
  { intros E. apply (Rmult_eq_compat_l (2 * a)) in E.
    replace (2 * a * ((- b + s) / (2 * a))) with (- b + s) in E by (field; exact Ha0).
    replace (2 * a * ((- b - s) / (2 * a))) with (- b - s) in E by (field; exact Ha0).
    lra. }
  destruct (Rlt_dec ((- b + s) / (2 * a)) ((- b - s) / (2 * a))) as [Hlt | Hge].
  - eexists _, _. split; [reflexivity |]. split; [exact Hlt | apply Permutation_refl].
  - eexists _, _. split; [reflexivity |]. split; [lra | apply perm_swap].
Qed.

(** What [quadratic_roots] computes, branch by branch.  It classifies in
    this order: [|a| < 1e-12] and [|b| < 1e-12] give the constant case with
    no root; [|a| < 1e-12] alone gives the linear case with the root [-c/b];
    otherwise, with [D = b^2 - 4ac], any [D > 0] gives two distinct real
    roots in ascending order, [-1e-10 < D <= 0] gives the repeated root
    [-b/(2a)], and [D <= -1e-10] gives no real root. *)
Lemma quadratic_roots_classification (a b c : R) :
  let D := quadratic_discriminant a b c in
  (Rabs a < 1e-12 -> Rabs b < 1e-12 ->
   quadratic_roots a b c = Ret (Constant_no_roots, [])) /\
  (Rabs a < 1e-12 -> ~ Rabs b < 1e-12 ->
   quadratic_roots a b c = Ret (Linear_one_root, [- c / b])) /\
  (~ Rabs a < 1e-12 -> D > 0 ->
   exists lo hi,
     quadratic_roots a b c = Ret (Two_distinct_real_roots D, [lo; hi]) /\
     lo < hi /\
     a * lo ^ 2 + b * lo + c = 0 /\ a * hi ^ 2 + b * hi + c = 0) /\
  (~ Rabs a < 1e-12 -> - 1e-10 < D <= 0 ->
   quadratic_roots a b c = Ret (One_repeated_real_root, [- b / (2 * a)])) /\
  (~ Rabs a < 1e-12 -> D <= - 1e-10 ->
   exists re im,
     quadratic_roots a b c = Ret (Two_complex_roots re im D, [])).
Proof.
  intros D. repeat apply conj.
  - intros Ha Hb. unfold quadratic_roots.
    destruct (Rlt_dec (Rabs a) 1e-12); [| contradiction].
    destruct (Rlt_dec (Rabs b) 1e-12); [reflexivity | contradiction].
  - intros Ha Hb. unfold quadratic_roots.
    destruct (Rlt_dec (Rabs a) 1e-12); [| contradiction].
    destruct (Rlt_dec (Rabs b) 1e-12); [contradiction |].
    assert (Hb0 : b <> 0) by (apply (Rabs_big_nonzero b 1e-12); [lra | exact Hb]).
    div_ok Hb0. reflexivity.
  - intros Ha HD.
    assert (Ha0 : a <> 0) by (apply (Rabs_big_nonzero a 1e-12); [lra | exact Ha]).
    destruct (quadratic_roots_positive_D a b c Ha HD) as (lo & hi & E & Hlt & P).
    exists lo, hi. split; [exact E |]. split; [exact Hlt |].
    assert (Hs : sqrt D * sqrt D = quadratic_discriminant a b c)
      by (apply sqrt_sqrt; unfold D in HD; lra).
    assert (Hin : forall r, In r [lo; hi] ->
                    r = (- b + sqrt D) / (2 * a) \/ r = (- b - sqrt D) / (2 * a)).
    { intros r Hr. apply (Permutation_in _ (Permutation_sym P)) in Hr.
      cbn in Hr. destruct Hr as [<- | [<- | []]]; [left | right]; reflexivity. }
    split; eapply (quadratic_root_formula a b c (sqrt D)); try eassumption;
      apply Hin; cbn; auto.
  - intros Ha [HDlo HDhi].
    assert (Ha0 : a <> 0) by (apply (Rabs_big_nonzero a 1e-12); [lra | exact Ha]).
    assert (H2a : 2 * a <> 0) by lra.
    unfold quadratic_roots.
    destruct (Rlt_dec (Rabs a) 1e-12); [contradiction |].
    cbv zeta. fold D.
    destruct (Rgt_dec D 0); [lra |].
    destruct (Rlt_dec (Rabs D) 1e-10) as [_ | Hn].
    + div_ok H2a. reflexivity.
    + exfalso. apply Hn, Rabs_lt_iff. lra.
  - intros Ha HD.
    assert (Ha0 : a <> 0) by (apply (Rabs_big_nonzero a 1e-12); [lra | exact Ha]).
    assert (H2a : 2 * a <> 0) by lra.
    unfold quadratic_roots.
    destruct (Rlt_dec (Rabs a) 1e-12); [contradiction |].
    cbv zeta. fold D.
    destruct (Rgt_dec D 0); [lra |].
    destruct (Rlt_dec (Rabs D) 1e-10) as [Hlt | _].
    + apply Rabs_lt_iff in Hlt. lra.
    + do 2 div_ok H2a. eexists _, _. reflexivity.
Qed.

Lemma quadratic_roots_examples :
  quadratic_roots 0 2 (- 4) = Ret (Linear_one_root, [- - 4 / 2]) /\
  exists lo hi,
    quadratic_roots 1 0 (- 4) =
      Ret (Two_distinct_real_roots (quadratic_discriminant 1 0 (- 4)), [lo; hi]) /\
    lo < hi.
Proof.
  split.
  - apply (quadratic_roots_classification 0 2 (- 4)).
    + rewrite Rabs_R0. lra.
    + rewrite Rabs_lt_iff. lra.
  - destruct (quadratic_roots_classification 1 0 (- 4)) as (_ & _ & H & _).
    destruct H as (lo & hi & E & Hlt & _).
    + rewrite Rabs_lt_iff. lra.
    + unfold quadratic_discriminant. lra.
    + exists lo, hi. split; [exact E | exact Hlt].
Defined.

(** A repeated root on the whole band [|D| <= 1e-10] is not what the code
    computes: the positive half of the band goes to the two-root branch. *)
Lemma quadratic_roots_tolerance_counterexample :
  ~ (forall a b c : R,
        ~ Rabs a < 1e-12 ->
        Rabs (quadratic_discriminant a b c) <= 1e-10 ->
        exists n, quadratic_roots a b c = Ret (n, [- b / (2 * a)])).
Proof.
  intros claim.
  assert (Ha : ~ Rabs 1 < 1e-12) by (rewrite Rabs_lt_iff; lra).
  assert (HD : quadratic_discriminant 1 0 (- 1e-12) = 4e-12)
    by (unfold quadratic_discriminant; lra).
  destruct (claim 1 0 (- 1e-12) Ha) as [n En].
  - rewrite HD. unfold Rabs. destruct (Rcase_abs 4e-12); lra.
  - destruct (quadratic_roots_positive_D 1 0 (- 1e-12) Ha) as (lo & hi & E & _).
    + rewrite HD. lra.
    + rewrite E in En. discriminate En.
Qed.

(** C1 (the code departs from it).  At [(a, b, c) = (1, 0, -1e-12)] the
    leading coefficient is not degenerate and the discriminant is [4e-12],
    inside the band [|D| <= 1e-10] where C1 asks for the single repeated
    root [-b/(2a) = 0]; [quadratic_roots] tests [D > 0] before the
    tolerance and answers with the two roots [-1e-6] and [1e-6]. *)
Theorem quadratic_roots_splits_inside_tolerance :
  ~ Rabs 1 < 1e-12 /\
  Rabs (quadratic_discriminant 1 0 (- 1e-12)) <= 1e-10 /\
  quadratic_roots 1 0 (- 1e-12) =
    Ret (Two_distinct_real_roots (quadratic_discriminant 1 0 (- 1e-12)),
         [- 1e-6; 1e-6]) /\
  quadratic_roots 1 0 (- 1e-12) <> Ret (One_repeated_real_root, [- 0 / (2 * 1)]).
Proof.
  assert (Ha : ~ Rabs 1 < 1e-12) by (rewrite Rabs_lt_iff; lra).
  assert (HD : quadratic_discriminant 1 0 (- 1e-12) = 2e-6 * 2e-6)
    by (unfold quadratic_discriminant; lra).
  assert (E : quadratic_roots 1 0 (- 1e-12) =
              Ret (Two_distinct_real_roots (quadratic_discriminant 1 0 (- 1e-12)),
                   [- 1e-6; 1e-6])).
  { unfold quadratic_roots.
    destruct (Rlt_dec (Rabs 1) 1e-12) as [? | _]; [contradiction |].
    cbv zeta.
    destruct (Rgt_dec (quadratic_discriminant 1 0 (- 1e-12)) 0) as [_ | Hn];
      [| rewrite HD in Hn; lra].
    assert (H2 : 2 * 1 <> 0) by lra.
    do 2 div_ok H2. unfold np_sqrt. rewrite sorted_pair.
    replace (sqrt (quadratic_discriminant 1 0 (- 1e-12))) with 2e-6
      by (rewrite HD, sqrt_square; lra).
    destruct (Rlt_dec ((- 0 + 2e-6) / (2 * 1)) ((- 0 - 2e-6) / (2 * 1)));
      [lra |].
    replace ((- 0 - 2e-6) / (2 * 1)) with (- 1e-6) by lra.
    replace ((- 0 + 2e-6) / (2 * 1)) with 1e-6 by lra.
    reflexivity. }
  split; [exact Ha |]. split.
  - rewrite HD. unfold Rabs. destruct (Rcase_abs (2e-6 * 2e-6)); lra.
  - split; [exact E |]. rewrite E. discriminate.
Qed.

(** ** Arguments of the square roots *)

Lemma quadratic_roots_sqrt_domain (a b c : R) :
  let D := quadratic_discriminant a b c in
  (D > 0 -> 0 <= D) /\ (~ D > 0 -> ~ Rabs D < 1e-10 -> 0 <= - D).
Proof.
  intros D. split; intros; lra.
Qed.

Lemma minor_over_major (a b : R) :
  0 < Rabs a -> 0 < Rabs b ->
  0 <= Rmin (Rabs a) (Rabs b) / Rmax (Rabs a) (Rabs b) <= 1.
Proof.
  intros Ha Hb.
  assert (HM : 0 < Rmax (Rabs a) (Rabs b))
    by (unfold Rmax; destruct (Rle_dec (Rabs a) (Rabs b)); lra).
  assert (Hm : 0 <= Rmin (Rabs a) (Rabs b) <= Rmax (Rabs a) (Rabs b))
    by (unfold Rmin, Rmax; destruct (Rle_dec (Rabs a) (Rabs b)); lra).
  split.
  - apply Rmult_le_pos; [lra |]. apply Rlt_le, Rinv_0_lt_compat, HM.
  - apply (Rmult_le_reg_r (Rmax (Rabs a) (Rabs b))); [exact HM |].
    unfold Rdiv. rewrite Rmult_assoc, Rinv_l by lra. lra.
Qed.

Lemma ellipse_properties_sqrt_domain (a b : R) :
  ~ Rabs a < 1e-9 -> ~ Rabs b < 1e-9 ->
  0 <= 1 - (Rmin (Rabs a) (Rabs b) / Rmax (Rabs a) (Rabs b)) ^ 2 /\
  0 <= Rmax (Rabs a ^ 2 - Rabs b ^ 2) 0.
Proof.
  intros Ha Hb. split.
  - destruct (minor_over_major a b) as [H0 H1]; [lra | lra |]. nra.
  - apply Rmax_r.
Qed.

(** ** The analyzers return *)

Lemma linear_properties_flat (m c : R) :
  Rabs m < 1e-12 ->
  linear_properties m c =
  Ret [ ("slope", VFloat m); ("y_intercept", VFloat c); ("x_intercept", VNone);
        ("parallel_to_x", VBool true); ("is_vertical", VBool false) ]%string.
Proof.
  intros Hm. unfold linear_properties.
  destruct (Rlt_dec (Rabs m) 1e-12); [reflexivity | contradiction].
Qed.

Lemma linear_properties_sloped (m c : R) :
  ~ Rabs m < 1e-12 ->
  linear_properties m c =
  Ret [ ("slope", VFloat m); ("y_intercept", VFloat c);
        ("x_intercept", VFloat (- c / m));
        ("parallel_to_x", VBool false); ("is_vertical", VBool false) ]%string.
Proof.
  intros Hm. unfold linear_properties.
  destruct (Rlt_dec (Rabs m) 1e-12); [contradiction |].
  assert (Hm0 : m <> 0) by (apply (Rabs_big_nonzero m 1e-12); [lra | exact Hm]).
  div_ok Hm0. reflexivity.
Qed.



Lemma quadratic_vertex_curved (a b c : R) :
  ~ Rabs a < 1e-12 ->
  quadratic_vertex a b c =
  Ret (- b / (2 * a), a * (- b / (2 * a)) ^ 2 + b * (- b / (2 * a)) + c).
Proof.
  intros Ha. unfold quadratic_vertex.
  destruct (Rlt_dec (Rabs a) 1e-12); [contradiction |].
  assert (Ha0 : a <> 0) by (apply (Rabs_big_nonzero a 1e-12); [lra | exact Ha]).
  assert (H2a : 2 * a <> 0) by lra.
  div_ok H2a. reflexivity.
Qed.

Lemma cubic_inflection_cases (a b : R) :
  (Rabs a < 1e-12 -> cubic_inflection a b = Ret None) /\
  (~ Rabs a < 1e-12 -> cubic_inflection a b = Ret (Some (- b / (3 * a)))).
Proof.
  unfold cubic_inflection. split; intros Ha;
    destruct (Rlt_dec (Rabs a) 1e-12); try contradiction; try reflexivity.
  assert (Ha0 : a <> 0) by (apply (Rabs_big_nonzero a 1e-12); [lra | exact Ha]).
  assert (H3a : 3 * a <> 0) by lra.
  div_ok H3a. reflexivity.
Qed.

Lemma trig_properties_flat (A B C : R) :
  Rabs B < 1e-12 ->
  trig_properties A B C =
  Ret [ ("amplitude", VFloat (Rabs A)); ("period", VInf);
        ("frequency", VFloat 0); ("phase_shift", VFloat 0);
        ("angular_freq", VFloat 0) ]%string.
Proof.
  intros HB. unfold trig_properties.
  destruct (Rlt_dec (Rabs B) 1e-12); [reflexivity | contradiction].
Qed.

Lemma trig_properties_periodic (A B C : R) :
  ~ Rabs B < 1e-12 ->
  trig_properties A B C =
  Ret [ ("amplitude", VFloat (Rabs A)); ("angular_freq", VFloat B);
        ("period", VFloat (2 * PI / Rabs B));
        ("frequency", VFloat (Rabs B / (2 * PI)));
        ("phase_shift", VFloat (- C / B)) ]%string.
Proof.
  intros HB. unfold trig_properties.
  destruct (Rlt_dec (Rabs B) 1e-12); [contradiction |].
  assert (HB0 : B <> 0) by (apply (Rabs_big_nonzero B 1e-12); [lra | exact HB]).
  assert (HaB : Rabs B <> 0) by lra.
  assert (Hpi : 2 * PI <> 0) by (pose proof PI_RGT_0; lra).
  div_ok HaB. div_ok Hpi. div_ok HB0. reflexivity.
Qed.

Lemma ellipse_properties_degenerate (a b : R) :
  Rabs a < 1e-9 \/ Rabs b < 1e-9 ->
  ellipse_properties a b = Ret [ ("error", VStr "Semi-axes must be non-zero") ]%string.
Proof.
  intros H. unfold ellipse_properties.
  destruct (Rlt_dec (Rabs a) 1e-9); [reflexivity |].
  destruct (Rlt_dec (Rabs b) 1e-9); [reflexivity |].
  destruct H; contradiction.
Qed.

Lemma ellipse_properties_regular (a b : R) :
  ~ Rabs a < 1e-9 -> ~ Rabs b < 1e-9 ->
  ellipse_properties a b =
  Ret [ ("semi_major", VFloat (Rmax (Rabs a) (Rabs b)));
        ("semi_minor", VFloat (Rmin (Rabs a) (Rabs b)));
        ("area", VFloat (PI * Rabs a * Rabs b));
        ("eccentricity",
         VFloat (sqrt (1 - (Rmin (Rabs a) (Rabs b) / Rmax (Rabs a) (Rabs b)) ^ 2)));
        ("focal_distance", VFloat (sqrt (Rmax (Rabs a ^ 2 - Rabs b ^ 2) 0)));
        ("major_axis_length", VFloat (2 * Rmax (Rabs a) (Rabs b)));
        ("minor_axis_length", VFloat (2 * Rmin (Rabs a) (Rabs b)));
        ("major_axis_along",
         VStr (if Rge_dec (Rabs a) (Rabs b) then "x-axis" else "y-axis")) ]%string.
Proof.
  intros Ha Hb. unfold ellipse_properties.
  destruct (Rlt_dec (Rabs a) 1e-9); [contradiction |].
  destruct (Rlt_dec (Rabs b) 1e-9); [contradiction |].
  cbn [orb]. cbv zeta.
  assert (HM : Rmax (Rabs a) (Rabs b) > 0)
    by (unfold Rmax; destruct (Rle_dec (Rabs a) (Rabs b)); lra).
  destruct (Rgt_dec (Rmax (Rabs a) (Rabs b)) 0); [| contradiction].
  assert (HM0 : Rmax (Rabs a) (Rabs b) <> 0) by lra.
  div_ok HM0. reflexivity.
Qed.



(** ** ellipse_properties *)

Lemma Rabs_pos_val (x : R) : 0 <= x -> Rabs x = x.
Proof. intros H. apply Rabs_pos_eq, H. Qed.

(** C9.  A semi-axis below [1e-9] in magnitude gives the bundle that holds
    the [error] entry and nothing else; otherwise the bundle holds the
    semi-axes, the area, the eccentricity, the focal distance, the axis
    lengths and the axis of the major axis, by the stated formulas.  For
    [(a, b) = (5, 3)]: 5, 3, [15 pi], 0.8, 4, along x. *)
Theorem ellipse_properties_spec (a b : R) :
  (Rabs a < 1e-9 \/ Rabs b < 1e-9 ->
   ellipse_properties a b =
   Ret [ ("error", VStr "Semi-axes must be non-zero") ]%string) /\
  (~ Rabs a < 1e-9 -> ~ Rabs b < 1e-9 ->
   let major := Rmax (Rabs a) (Rabs b) in
   let minor := Rmin (Rabs a) (Rabs b) in
   ellipse_properties a b =
   Ret [ ("semi_major", VFloat major);
         ("semi_minor", VFloat minor);
         ("area", VFloat (PI * Rabs a * Rabs b));
         ("eccentricity", VFloat (sqrt (1 - (minor / major) ^ 2)));
         ("focal_distance", VFloat (sqrt (Rmax (a ^ 2 - b ^ 2) 0)));
         ("major_axis_length", VFloat (2 * major));
         ("minor_axis_length", VFloat (2 * minor));
         ("major_axis_along",
          VStr (if Rge_dec (Rabs a) (Rabs b) then "x-axis" else "y-axis")) ]%string) /\
  ellipse_properties 5 3 =
  Ret [ ("semi_major", VFloat 5);
        ("semi_minor", VFloat 3);
        ("area", VFloat (15 * PI));
        ("eccentricity", VFloat 0.8);
        ("focal_distance", VFloat 4);
        ("major_axis_length", VFloat 10);
        ("minor_axis_length", VFloat 6);
        ("major_axis_along", VStr "x-axis") ]%string.
Proof.
  split; [apply ellipse_properties_degenerate |]. split.
  - intros Ha Hb. cbv zeta. rewrite (ellipse_properties_regular _ _ Ha Hb).
    replace (Rabs a ^ 2 - Rabs b ^ 2) with (a ^ 2 - b ^ 2); [reflexivity |].
    rewrite <- !Rsqr_pow2, <- !Rsqr_abs. reflexivity.
  - rewrite ellipse_properties_regular by (rewrite Rabs_lt_iff; lra).
    rewrite (Rabs_pos_val 5), (Rabs_pos_val 3) by lra.
    replace (Rmax 5 3) with 5 by (unfold Rmax; destruct (Rle_dec 5 3); lra).
    replace (Rmin 5 3) with 3 by (unfold Rmin; destruct (Rle_dec 5 3); lra).
    replace (Rmax (5 ^ 2 - 3 ^ 2) 0) with (4 * 4)
      by (unfold Rmax; destruct (Rle_dec (5 ^ 2 - 3 ^ 2) 0); lra).
    replace (1 - (3 / 5) ^ 2) with (0.8 * 0.8) by lra.
    rewrite !sqrt_square by lra.
    destruct (Rge_dec 5 3); [| lra].
    replace (PI * 5 * 3) with (15 * PI) by lra.
    replace (2 * 5) with 10 by lra.
    replace (2 * 3) with 6 by lra.
    reflexivity.
Qed.

Lemma ellipse_properties_spec_witness :
  ellipse_properties 0 3 =
    Ret [ ("error", VStr "Semi-axes must be non-zero") ]%string /\
  exists props, ellipse_properties 2 2 = Ret props /\
    dict_get props "semi_major" = Some (VFloat (Rmax (Rabs 2) (Rabs 2))).
Proof.
  destruct (ellipse_properties_spec 0 3) as (Herr & _).
  destruct (ellipse_properties_spec 2 2) as (_ & Hreg & _).
  split.
  - apply Herr. left. rewrite Rabs_R0. lra.
  - eexists. split.
    + apply Hreg; rewrite Rabs_lt_iff; lra.
    + reflexivity.
Defined.

(** ** np.linspace and safe_linspace *)

Lemma linspace_samples_length (start stop : R) (n : nat) :
  List.length (linspace_samples start stop n) = n.
Proof.
  destruct n as [| [| k]]; cbn [linspace_samples]; try reflexivity.
  rewrite length_app, length_map, length_seq. cbn. lia.
Qed.

Lemma np_linspace_returns (start stop : R) (num : Z) :
  (0 <= num)%Z ->
  np_linspace start stop num = Ret (linspace_samples start stop (Z.to_nat num)).
Proof.
  intros H. unfold np_linspace.
  destruct (Z.ltb_spec num 0); [lia | reflexivity].
Qed.

(** Sample [i] lies at [start + i * step]. *)
Lemma linspace_samples_nth (start stop : R) (n i : nat) :
  (i < n)%nat ->
  nth i (linspace_samples start stop n) 0 =
  start + INR i * ((stop - start) / INR (n - 1)).
Proof.
  intros Hi. destruct n as [| [| k]]; [lia | |].
  - assert (i = 0%nat) as -> by lia. cbn. lra.
  - cbn [linspace_samples].
    replace (S (S k) - 1)%nat with (S k) by lia.
    assert (Hk : INR (S k) <> 0) by (apply not_0_INR; lia).
    destruct (Nat.eq_dec i (S k)) as [-> | Hne].
    + rewrite app_nth2; rewrite length_map, length_seq; [| lia].
      rewrite Nat.sub_diag. cbn [nth]. field. exact Hk.
    + rewrite app_nth1 by (rewrite length_map, length_seq; lia).
      set (f := fun j => INR j * ((stop - start) / INR (S k)) + start).
      rewrite (nth_indep _ 0 (f 0%nat))
        by (rewrite length_map, length_seq; lia).
      rewrite map_nth, seq_nth by lia. unfold f. cbn [Nat.add]. lra.
Qed.

Lemma Sorted_of_nth_increasing (l : list R) :
  (forall i, (S i < List.length l)%nat -> nth i l 0 < nth (S i) l 0) ->
  Sorted Rlt l.
Proof.
  induction l as [| x l IH]; intros H; [constructor |].
  constructor.
  - apply IH. intros i Hi. apply (H (S i)). cbn. lia.
  - destruct l as [| y l]; constructor.
    apply (H 0%nat). cbn. lia.
Qed.

(** C7.  For every domain and every count [n], [safe_linspace] returns
    exactly [n] samples, sample [i] at [start + i * (stop - start) / (n - 1)],
    ascending and inside [[start, stop]], where [stop] is the given end, or
    [start + 1e-6] when the given end does not exceed [start]; the domain
    sampled is never empty and no error is raised. *)
Theorem safe_linspace_spec (start end_ : R) (n : nat) :
  let stop := if Rge_dec start end_ then start + 1e-6 else end_ in
  exists xs,
    safe_linspace start end_ (Z.of_nat n) = Ret xs /\
    List.length xs = n /\
    start < stop /\
    (forall i, (i < n)%nat ->
       nth i xs 0 = start + INR i * ((stop - start) / INR (n - 1))) /\
    ((1 <= n)%nat -> nth 0 xs 0 = start) /\
    ((2 <= n)%nat -> nth (n - 1) xs 0 = stop) /\
    (forall i, (i < n)%nat -> start <= nth i xs 0 <= stop) /\
    Sorted Rlt xs.
Proof.
  intros stop.
  assert (Hlt : start < stop) by (unfold stop; destruct (Rge_dec start end_); lra).
  exists (linspace_samples start stop n).
  assert (Hnth : forall i, (i < n)%nat ->
            nth i (linspace_samples start stop n) 0 =
            start + INR i * ((stop - start) / INR (n - 1)))
    by (intros i Hi; apply linspace_samples_nth, Hi).
  split.
  { unfold safe_linspace. fold stop.
    rewrite np_linspace_returns by lia. rewrite Nat2Z.id. reflexivity. }
  split; [apply linspace_samples_length |].
  split; [exact Hlt |].
  split; [exact Hnth |].
  split; [intros Hn; rewrite Hnth by lia; cbn [INR]; lra |].
  split.
  { intros Hn. rewrite Hnth by lia. field. apply not_0_INR. lia. }
  assert (Hstep : (2 <= n)%nat -> 0 < (stop - start) / INR (n - 1)).
  { intros Hn. apply Rdiv_lt_0_compat; [lra |]. apply lt_0_INR. lia. }
  split.
  - intros i Hi. rewrite (Hnth i Hi).
    destruct (Nat.eq_dec i 0) as [-> | Hi0]; [cbn [INR]; lra |].
    assert (Hn : (2 <= n)%nat) by lia.
    pose proof (Hstep Hn) as Hs.
    assert (H0 : 0 <= INR i) by apply pos_INR.
    assert (H1 : INR i <= INR (n - 1)) by (apply le_INR; lia).
    assert (HN : 0 < INR (n - 1)) by (apply lt_0_INR; lia).
    assert (E : INR (n - 1) * ((stop - start) / INR (n - 1)) = stop - start)
      by (field; lra).
    nra.
  - apply Sorted_of_nth_increasing. intros i Hi.
    rewrite linspace_samples_length in Hi.
    rewrite (Hnth i), (Hnth (S i)) by lia.
    rewrite S_INR. pose proof (Hstep ltac:(lia)). lra.
Qed.

Lemma safe_linspace_spec_witness :
  exists xs, safe_linspace 5 5 3 = Ret xs /\
             List.length xs = 3%nat /\
             nth 0 xs 0 = 5 /\ nth 2 xs 0 = 5 + 1e-6.
Proof.
  destruct (safe_linspace_spec 5 5 3)
    as (xs & E & Hlen & _ & _ & Hfirst & Hlast & _).
  exists xs. split; [exact E |]. split; [exact Hlen |]. split.
  - apply Hfirst. lia.
  - pose proof (Hlast ltac:(lia)) as H.
    change (3 - 1)%nat with 2%nat in H. rewrite H.
    destruct (Rge_dec 5 5); lra.
Defined.

Lemma safe_linspace_negative_count (start end_ : R) (num : Z) :
  (num < 0)%Z -> raises (safe_linspace start end_ num).
Proof.
  intros H. unfold safe_linspace, np_linspace.
  destruct (Z.ltb_spec num 0); [eexists; reflexivity | lia].
Qed.

(** ** plot_ellipse *)

Lemma py_index_ok (l : list R) (i : nat) :
  (i < List.length l)%nat -> py_index l i = Ret (nth i l 0).
Proof.
  intros H. unfold py_index.
  rewrite (nth_error_nth' l 0 H). reflexivity.
Qed.

Lemma parametric_ellipse_returns (a b : R) (num : Z) :
  (0 <= num)%Z ->
  exists x y,
    parametric_ellipse a b num = Ret (x, y) /\
    List.length x = Z.to_nat num /\ List.length y = Z.to_nat num.
Proof.
  intros H. unfold parametric_ellipse.
  rewrite np_linspace_returns by exact H. cbn [bind].
  eexists _, _. split; [reflexivity |].
  rewrite !length_map, linspace_samples_length. split; reflexivity.
Qed.

(** The figure of a regular ellipse: the closed curve, the four vertices,
    and the two foci when the focal distance exceeds [1e-6]. *)
Lemma plot_ellipse_regular (a b : R) :
  ~ Rabs a < 1e-9 -> ~ Rabs b < 1e-9 ->
  exists curve,
    plot_ellipse a b =
    Ret (let c := sqrt (Rmax (Rabs a ^ 2 - Rabs b ^ 2) 0) in
         let fig :=
           add_markers (add_trace base_figure curve)
                       [(a, 0); (- a, 0); (0, b); (0, - b)] "diamond" in
         if Rgt_dec c 1e-6 then
           add_markers fig
             (if Rge_dec (Rabs a) (Rabs b)
              then [(c, 0); (- c, 0)] else [(0, c); (0, - c)])
             "circle-open"
         else fig) /\
    is_focus curve = false.
Proof.
  intros Ha Hb.
  destruct (parametric_ellipse_returns a b 800 ltac:(lia)) as (x & y & E & Hx & Hy).
  unfold plot_ellipse. rewrite E. cbn [bind fst snd].
  rewrite !py_index_ok by lia. cbn [bind].
  rewrite (ellipse_properties_regular _ _ Ha Hb). cbn [bind].
  match goal with
  | |- context [dict_mem ?k ?d] => change (dict_mem k d) with false
  end.
  cbv iota.
  match goal with
  | |- context [dict_getitem ?d ?k] =>
      change (dict_getitem d k)
        with (Ret (A := value) (VFloat (sqrt (Rmax (Rabs a ^ 2 - Rabs b ^ 2) 0))))
  end.
  cbn [bind as_float].
  eexists. split; reflexivity.
Qed.

Lemma focal_distance_y_major (a b : R) :
  Rabs b > Rabs a -> sqrt (Rmax (Rabs a ^ 2 - Rabs b ^ 2) 0) = 0.
Proof.
  intros H. pose proof (Rabs_pos a).
  rewrite Rmax_right by nra. apply sqrt_0.
Qed.

(** C10.  A regular ellipse with [|b| > |a|] is reported with its major axis
    along y, a positive eccentricity and the focal distance 0; its figure
    holds no focus marker. *)
Theorem ellipse_y_major_no_foci (a b : R) :
  Rabs a >= 1e-9 -> Rabs b >= 1e-9 -> Rabs b > Rabs a ->
  exists props ecc fig,
    ellipse_properties a b = Ret props /\
    dict_get props "major_axis_along" = Some (VStr "y-axis") /\
    dict_get props "focal_distance" = Some (VFloat 0) /\
    dict_get props "eccentricity" = Some (VFloat ecc) /\
    ecc > 0 /\
    plot_ellipse a b = Ret fig /\
    existsb is_focus (fig_data fig) = false.
Proof.
  intros Ha Hb Hab.
  assert (Ha' : ~ Rabs a < 1e-9) by lra.
  assert (Hb' : ~ Rabs b < 1e-9) by lra.
  destruct (plot_ellipse_regular a b Ha' Hb') as (curve & Efig & Hcurve).
  rewrite (focal_distance_y_major _ _ Hab) in Efig. cbv zeta in Efig.
  destruct (Rgt_dec 0 1e-6) as [Hbad | _] in Efig; [lra |].
  pose proof (ellipse_properties_regular _ _ Ha' Hb') as Eprops.
  rewrite (focal_distance_y_major _ _ Hab) in Eprops.
  destruct (Rge_dec (Rabs a) (Rabs b)) as [Hge | _] in Eprops; [lra |].
  eexists _, _, _. split; [exact Eprops |].
  do 3 (split; [reflexivity |]).
  split.
  - destruct (minor_over_major a b) as [H0 H1]; [lra | lra |].
    apply sqrt_lt_R0.
    assert (Hq : Rmin (Rabs a) (Rabs b) / Rmax (Rabs a) (Rabs b) < 1).
    { rewrite Rmin_left, Rmax_right by lra.
      apply (Rmult_lt_reg_r (Rabs b)); [lra |].
      unfold Rdiv. rewrite Rmult_assoc, Rinv_l by lra. lra. }
    nra.
  - split; [exact Efig |].
    cbn. rewrite Hcurve. reflexivity.
Qed.

Lemma ellipse_y_major_no_foci_witness :
  exists fig, plot_ellipse 3 5 = Ret fig /\
              existsb is_focus (fig_data fig) = false.
Proof.
  assert (H3 : Rabs 3 = 3) by (apply Rabs_pos_val; lra).
  assert (H5 : Rabs 5 = 5) by (apply Rabs_pos_val; lra).
  destruct (ellipse_y_major_no_foci 3 5) as (props & ecc & fig & _ & _ & _ & _ & _ & E & F).
  - rewrite H3. lra.
  - rewrite H5. lra.
  - rewrite H3, H5. lra.
  - exists fig. split; [exact E | exact F].
Defined.

(** The markers are there when the major axis lies along x: the figure of
    [(a, b) = (5, 3)] holds the two foci. *)
Lemma plot_ellipse_x_major_has_foci :
  exists fig, plot_ellipse 5 3 = Ret fig /\
              existsb is_focus (fig_data fig) = true.
Proof.
  destruct (plot_ellipse_regular 5 3) as (curve & Efig & Hcurve);
    try (rewrite Rabs_lt_iff; lra).
  rewrite (Rabs_pos_val 5), (Rabs_pos_val 3) in Efig by lra.
  replace (Rmax (5 ^ 2 - 3 ^ 2) 0) with (4 * 4) in Efig
    by (unfold Rmax; destruct (Rle_dec (5 ^ 2 - 3 ^ 2) 0); lra).
  rewrite sqrt_square in Efig by lra. cbv zeta in Efig.
  destruct (Rgt_dec 4 1e-6) as [_ | Hbad] in Efig; [| lra].
  destruct (Rge_dec 5 3) as [_ | Hbad] in Efig; [| lra].
  eexists. split; [exact Efig |].
  cbn. rewrite Hcurve. reflexivity.
Qed.

(** ** compute_trig and trig_properties *)

Lemma compute_trig_zero_frequency (A C : R) (func : string) (x : list R) :
  compute_trig A 0 C func x = Ret (np_zeros_like x).
Proof.
  unfold compute_trig. destruct (Req_dec_T 0 0) as [_ | H]; [reflexivity | lra].
Qed.

Lemma compute_trig_sin (A B C : R) (x : list R) :
  B <> 0 ->
  compute_trig A B C "sin" x = Ret (scale A (np_sin (map (fun xi => B * xi + C) x))).
Proof.
  intros HB. unfold compute_trig.
  destruct (Req_dec_T B 0); [contradiction | reflexivity].
Qed.

Lemma compute_trig_cos (A B C : R) (x : list R) :
  B <> 0 ->
  compute_trig A B C "cos" x = Ret (scale A (np_cos (map (fun xi => B * xi + C) x))).
Proof.
  intros HB. unfold compute_trig.
  destruct (Req_dec_T B 0); [contradiction | reflexivity].
Qed.

Lemma compute_trig_unknown (A B C : R) (func : string) (x : list R) :
  B <> 0 -> func <> "sin"%string -> func <> "cos"%string ->
  compute_trig A B C func x =
  Raise (ValueError ("Unknown trig function: " ++ func)%string).
Proof.
  intros HB Hs Hc. unfold compute_trig.
  destruct (Req_dec_T B 0); [contradiction |].
  apply String.eqb_neq in Hs, Hc. rewrite Hs, Hc. reflexivity.
Qed.

(** C3 (amended).  [compute_trig] raises exactly when [B] is not zero and
    the tag is neither ['sin'] nor ['cos']; what it raises is then the
    [ValueError] of the unknown tag, and on the two valid tags it returns. *)
Theorem compute_trig_raises_iff (A B C : R) (func : string) (x : list R) :
  (raises (compute_trig A B C func x) <->
   B <> 0 /\ func <> "sin"%string /\ func <> "cos"%string) /\
  (forall e, compute_trig A B C func x = Raise e ->
             e = ValueError ("Unknown trig function: " ++ func)%string) /\
  (func = "sin"%string \/ func = "cos"%string ->
   returns (compute_trig A B C func x)).
Proof.
  destruct (Req_dec_T B 0) as [-> | HB].
  - rewrite compute_trig_zero_frequency. split; [split | split].
    + intros [e He]. discriminate He.
    + intros (HB & _). lra.
    + intros e He. discriminate He.
    + intros _. eexists. reflexivity.
  - destruct (string_dec func "sin") as [-> | Hs].
    { rewrite (compute_trig_sin _ _ _ _ HB). split; [split | split].
      - intros [e He]. discriminate He.
      - intros (_ & Hn & _). congruence.
      - intros e He. discriminate He.
      - intros _. eexists. reflexivity. }
    destruct (string_dec func "cos") as [-> | Hc].
    { rewrite (compute_trig_cos _ _ _ _ HB). split; [split | split].
      - intros [e He]. discriminate He.
      - intros (_ & _ & Hn). congruence.
      - intros e He. discriminate He.
      - intros _. eexists. reflexivity. }
    rewrite (compute_trig_unknown _ _ _ _ _ HB Hs Hc). split; [split | split].
    + intros _. auto.
    + intros _. eexists. reflexivity.
    + intros e He. injection He as <-. reflexivity.
    + intros [E | E]; contradiction.
Qed.

Lemma compute_trig_raises_iff_witness :
  returns (compute_trig 2 1 0 "sin" [0; 1]) /\
  raises (compute_trig 2 1 0 "tan" [0; 1]).
Proof.
  destruct (compute_trig_raises_iff 2 1 0 "sin" [0; 1]) as (_ & _ & Hret).
  destruct (compute_trig_raises_iff 2 1 0 "tan" [0; 1]) as ([_ Hraise] & _).
  split.
  - apply Hret. left. reflexivity.
  - apply Hraise. repeat split; [lra | discriminate | discriminate].
Defined.

(** C3 as the specification words it: every unrecognized tag raises.  With
    [B = 0] the tag is never looked at. *)
Lemma compute_trig_unknown_tag_counterexample :
  ~ (forall (A B C : R) (func : string) (x : list R),
        raises (compute_trig A B C func x) <->
        func <> "sin"%string /\ func <> "cos"%string).
Proof.
  intros claim.
  destruct (claim 1 0 0 "tan"%string [1]) as [_ H].
  destruct H as [e He]; [split; discriminate |].
  rewrite compute_trig_zero_frequency in He. discriminate He.
Qed.

(** C4.  With [B = 0] the curve is the zero array of the length of [x],
    whatever [A], [C] and the tag; and whenever [|B| < 1e-12], so for
    [B = 0] too, the bundle reads amplitude [|A|], period infinite,
    frequency 0, phase shift 0, angular frequency 0. *)
Theorem trig_zero_frequency (A B C : R) (func : string) (x : list R) :
  (B = 0 ->
   exists y, compute_trig A B C func x = Ret y /\
             List.length y = List.length x /\
             Forall (fun v => v = 0) y) /\
  (B = 0 \/ Rabs B < 1e-12 ->
   exists props, trig_properties A B C = Ret props /\
     dict_get props "amplitude" = Some (VFloat (Rabs A)) /\
     dict_get props "period" = Some VInf /\
     dict_get props "frequency" = Some (VFloat 0) /\
     dict_get props "phase_shift" = Some (VFloat 0) /\
     dict_get props "angular_freq" = Some (VFloat 0)).
Proof.
  split.
  - intros ->. rewrite compute_trig_zero_frequency.
    eexists. split; [reflexivity |]. unfold np_zeros_like. split.
    + apply length_map.
    + apply Forall_map, Forall_forall. reflexivity.
  - intros H.
    assert (HB : Rabs B < 1e-12)
      by (destruct H as [-> | H]; [rewrite Rabs_R0; lra | exact H]).
    rewrite (trig_properties_flat _ _ _ HB).
    eexists. repeat split.
Qed.

Lemma trig_zero_frequency_witness :
  compute_trig 3 0 1 "sin" [0; 1; 2] = Ret [0; 0; 0] /\
  exists props, trig_properties 3 0 1 = Ret props /\
                dict_get props "period" = Some VInf.
Proof.
  destruct (trig_zero_frequency 3 0 1 "sin" [0; 1; 2]) as [Hy Hp].
  split.
  - destruct (Hy eq_refl) as (y & E & Hlen & Hall).
    rewrite E. f_equal.
    destruct y as [| y0 [| y1 [| y2 [| ? ?]]]]; try discriminate Hlen.
    inversion Hall as [| ? ? -> Hall1]; subst.
    inversion Hall1 as [| ? ? -> Hall2]; subst.
    inversion Hall2 as [| ? ? -> _]; subst.
    reflexivity.
  - destruct (Hp (or_introl eq_refl)) as (props & E & _ & Hper & _).
    exists props. split; [exact E | exact Hper].
Defined.

(** ** _animated_plot *)

Lemma phase_sweep_nth (i : nat) :
  (i < 60)%nat -> nth i (linspace_samples 0 (2 * PI) 60) 0 = phi i.
Proof.
  intros Hi. rewrite linspace_samples_nth by exact Hi.
  unfold phi. change (60 - 1)%nat with 59%nat.
  replace (INR 59) with 59 by (rewrite INR_IZR_INZ; reflexivity).
  lra.
Qed.

(** Frame [i] of the animated figure, as the code computes it. *)
Lemma animated_plot_frame (A B C : R) (func : string) (x : list R) (i : nat) :
  (i < 60)%nat ->
  exists fig,
    _animated_plot A B C func x = Ret fig /\
    List.length (fig_frames fig) = 60%nat /\
    nth_error (fig_frames fig) i =
    Some [Scatter_lines x
            (scale A ((if String.eqb func "sin" then np_sin else np_cos)
                        (map (fun xi => B * xi + C + phi i) x)))].
Proof.
  intros Hi. unfold _animated_plot. cbv zeta.
  rewrite np_linspace_returns by lia. cbn [bind].
  change (Z.to_nat 60) with 60%nat.
  eexists. split; [reflexivity |]. cbn [fig_frames].
  split; [rewrite length_map; apply linspace_samples_length |].
  rewrite nth_error_map.
  rewrite (nth_error_nth' _ 0) by (rewrite linspace_samples_length; exact Hi).
  rewrite (phase_sweep_nth i Hi). reflexivity.
Qed.

(** Away from [B = 0] and on a valid tag, every frame is the static curve of
    the phase [C + phi i]. *)
Lemma animated_plot_frames_agree (A B C : R) (func : string) (x : list R) (i : nat) :
  B <> 0 -> func = "sin"%string \/ func = "cos"%string -> (i < 60)%nat ->
  exists fig y,
    _animated_plot A B C func x = Ret fig /\
    compute_trig A B (C + phi i) func x = Ret y /\
    nth_error (fig_frames fig) i = Some [Scatter_lines x y].
Proof.
  intros HB Hf Hi.
  destruct (animated_plot_frame A B C func x i Hi) as (fig & E & _ & Hframe).
  assert (Hmap : map (fun xi => B * xi + C + phi i) x =
                 map (fun xi => B * xi + (C + phi i)) x)
    by (apply map_ext; intros; lra).
  rewrite Hmap in Hframe.
  exists fig. destruct Hf as [-> | ->].
  - eexists. split; [exact E |]. split; [apply compute_trig_sin, HB | exact Hframe].
  - eexists. split; [exact E |]. split; [apply compute_trig_cos, HB | exact Hframe].
Qed.

(** C5 (the code departs from it).  At [A = 1], [B = 0], [C = 0], tag
    ['cos'] and the single sample [x = 0], frame 0 of the animated figure
    holds the value 1, while [compute_trig] at the phase [C + phi 0] answers
    0: the animated path evaluates [A * fn (B * x + C + phi)] itself and
    leaves out the [B == 0] branch of [compute_trig]. *)
Theorem animated_plot_misses_zero_frequency_branch :
  exists fig,
    _animated_plot 1 0 0 "cos" [0] = Ret fig /\
    nth_error (fig_frames fig) 0 = Some [Scatter_lines [0] [1]] /\
    compute_trig 1 0 (0 + phi 0) "cos" [0] = Ret [0].
Proof.
  destruct (animated_plot_frame 1 0 0 "cos" [0] 0 ltac:(lia)) as (fig & E & _ & Hframe).
  exists fig. split; [exact E |]. split.
  - rewrite Hframe. cbn. unfold phi. cbn [INR].
    replace (0 * 0 + 0 + 0 * (2 * PI / 59)) with 0 by lra.
    rewrite cos_0. replace (1 * 1) with 1 by lra. reflexivity.
  - apply compute_trig_zero_frequency.
Qed.

(** ** find_real_roots *)

Lemma nearly_real_iff (r : complex) :
  nearly_real r = true <-> Rabs (imag r) < 1e-8.
Proof.
  unfold nearly_real. destruct (Rlt_dec (Rabs (imag r)) 1e-8); split;
    intros; try assumption; try reflexivity; try discriminate; contradiction.
Qed.

Section RootFindingProperties.

Variable np_roots : list R -> list complex.

(** numpy strips the zero coefficients first and answers with the empty
    array when none is left. *)
Hypothesis np_roots_all_zero :
  forall coefficients,
    Forall (fun c => c = 0) coefficients -> np_roots coefficients = [].

(** C6.  [find_real_roots] keeps exactly the roots whose imaginary part is
    below [1e-8] in magnitude and returns their real parts in ascending
    order; on all-zero coefficients the result is the empty list.  The
    function is total: nothing in it raises. *)
Theorem find_real_roots_spec (coefficients : list R) :
  let kept := filter nearly_real (np_roots coefficients) in
  (forall r, In r kept <->
             In r (np_roots coefficients) /\ Rabs (imag r) < 1e-8) /\
  Permutation (map real kept) (find_real_roots np_roots coefficients) /\
  Sorted Rle (find_real_roots np_roots coefficients) /\
  (Forall (fun c => c = 0) coefficients ->
   find_real_roots np_roots coefficients = []).
Proof.
  intros kept. split; [| split; [| split]].
  - intros r. unfold kept. rewrite filter_In, nearly_real_iff. reflexivity.
  - apply sorted_perm.
  - apply sorted_Sorted.
  - intros Hz. unfold find_real_roots.
    rewrite (np_roots_all_zero _ Hz). reflexivity.
Qed.

End RootFindingProperties.

Lemma linear_np_roots_all_zero (coefficients : list R) :
  Forall (fun c => c = 0) coefficients -> linear_np_roots coefficients = [].
Proof.
  intros H. destruct coefficients as [| a [| b [| ? ?]]]; try reflexivity.
  inversion H as [| ? ? Ha _]; subst. cbn.
  destruct (Req_dec_T 0 0); [reflexivity | lra].
Qed.

Lemma find_real_roots_spec_witness :
  find_real_roots linear_np_roots [0; 0; 0] = [] /\
  Sorted Rle (find_real_roots linear_np_roots [2; - 4]).
Proof.
  destruct (find_real_roots_spec linear_np_roots linear_np_roots_all_zero [0; 0; 0])
    as (_ & _ & _ & Hzero).
  destruct (find_real_roots_spec linear_np_roots linear_np_roots_all_zero [2; - 4])
    as (_ & _ & Hsorted & _).
  split; [| exact Hsorted].
  apply Hzero. repeat constructor.
Defined.

(** * Further properties of the engine *)

(** ** polynomial_value *)

Lemma horner_acc (p : list R) (x acc : R) :
  fold_left (fun y pv => y * x + pv) p acc =
  acc * x ^ List.length p + horner p x.
Proof.
  unfold horner. revert acc.
  induction p as [| c p IH]; intros acc; cbn [fold_left List.length].
  - cbn. lra.
  - rewrite IH, (IH (0 * x + c)). cbn [pow]. ring.
Qed.

Lemma horner_cons (c : R) (p : list R) (x : R) :
  horner (c :: p) x = c * x ^ List.length p + horner p x.
Proof.
  unfold horner at 1. cbn [fold_left]. rewrite horner_acc. ring.
Qed.

Lemma power_sum_cons (c : R) (p : list R) (x : R) :
  power_sum (c :: p) x = c * x ^ List.length p + power_sum p x.
Proof.
  unfold power_sum. cbn [List.length seq map fold_right nth].
  replace (S (List.length p) - 1 - 0)%nat with (List.length p) by lia.
  f_equal. rewrite <- seq_shift, map_map. f_equal.
  apply map_ext. intros i.
  replace (S (List.length p) - 1 - S i)%nat with (List.length p - 1 - i)%nat by lia.
  reflexivity.
Qed.

(** Horner's scheme computes the polynomial with the highest degree first:
    every sample of [polynomial_value] is the term-by-term sum, and there is
    one sample per point. *)
Theorem polynomial_value_power_sum (coeffs x : list R) :
  polynomial_value coeffs x = map (power_sum coeffs) x /\
  List.length (polynomial_value coeffs x) = List.length x.
Proof.
  unfold polynomial_value, np_polyval. split; [| apply length_map].
  apply map_ext. intros xi.
  induction coeffs as [| c p IH].
  - reflexivity.
  - rewrite horner_cons, power_sum_cons, IH. reflexivity.
Qed.

(** ** polynomial_derivative is the derivative *)

Lemma polynomial_derivative_cons (c : R) (p : list R) :
  (2 <= List.length p)%nat ->
  polynomial_derivative (c :: p) =
  c * INR (List.length p) :: polynomial_derivative p.
Proof.
  intros Hp.
  rewrite polynomial_derivative_long by (cbn [List.length]; lia).
  rewrite (polynomial_derivative_long p Hp).
  cbn [List.length].
  replace (S (List.length p) - 1)%nat with (S (List.length p - 1)) by lia.
  cbn [seq map nth].
  replace (S (List.length p - 1) - 0)%nat with (List.length p) by lia.
  f_equal. rewrite <- seq_shift, map_map. apply map_ext. intros i.
  replace (S (List.length p - 1) - S i)%nat with (List.length p - 1 - i)%nat by lia.
  reflexivity.
Qed.

Lemma polynomial_derivative_length (p : list R) :
  (2 <= List.length p)%nat ->
  List.length (polynomial_derivative p) = (List.length p - 1)%nat.
Proof.
  intros Hp. rewrite (polynomial_derivative_long p Hp).
  rewrite length_map, length_seq. reflexivity.
Qed.

Lemma horner_derivative_cons (c : R) (p : list R) (x : R) :
  (1 <= List.length p)%nat ->
  horner (polynomial_derivative (c :: p)) x =
  c * (INR (List.length p) * x ^ pred (List.length p)) +
  horner (polynomial_derivative p) x.
Proof.
  intros Hp. destruct p as [| d [| e p]]; [cbn in Hp; lia | |].
  - cbn. lra.
  - rewrite polynomial_derivative_cons by (cbn [List.length]; lia).
    rewrite horner_cons.
    rewrite polynomial_derivative_length by (cbn [List.length]; lia).
    replace (List.length (d :: e :: p) - 1)%nat
      with (pred (List.length (d :: e :: p))) by lia.
    ring.
Qed.

(** The coefficients [polynomial_derivative] returns are those of the
    derivative: at every point the curve of [polynomial_value coeffs] is
    derivable, and its derivative there is the value that
    [polynomial_value] gives for [polynomial_derivative coeffs]. *)
Theorem polynomial_derivative_is_derivative (coeffs : list R) (x : R) :
  derivable_pt_lim (fun t => nth 0 (polynomial_value coeffs [t]) 0) x
    (nth 0 (polynomial_value (polynomial_derivative coeffs) [x]) 0).
Proof.
  change (derivable_pt_lim (horner coeffs) x
            (horner (polynomial_derivative coeffs) x)).
  induction coeffs as [| c p IH].
  - apply (derivable_pt_lim_ext (fct_cte 0)); [reflexivity |].
    replace (horner (polynomial_derivative []) x) with 0 by (cbn; lra).
    apply derivable_pt_lim_const.
  - destruct p as [| d p].
    + apply (derivable_pt_lim_ext (fct_cte c));
        [intros z; unfold fct_cte; cbn; lra |].
      replace (horner (polynomial_derivative [c]) x) with 0 by (cbn; lra).
      apply derivable_pt_lim_const.
    + rewrite horner_derivative_cons by (cbn [List.length]; lia).
      set (n := List.length (d :: p)).
      apply (derivable_pt_lim_ext
               (mult_real_fct c (fun y => y ^ n) + horner (d :: p))%F).
      * intros z. unfold plus_fct, mult_real_fct.
        rewrite (horner_cons c (d :: p)). reflexivity.
      * apply derivable_pt_lim_plus; [| exact IH].
        apply derivable_pt_lim_scal, derivable_pt_lim_pow.
Qed.

(** ** The family curves *)

(** The closed forms of the linear, quadratic and cubic modules and the
    Horner evaluation of [polynomial_value] draw the same curve. *)
Theorem compute_curves_are_polynomial_values (m a b c d : R) (x : list R) :
  compute_linear m c x = polynomial_value [m; c] x /\
  compute_quadratic a b c x = polynomial_value [a; b; c] x /\
  compute_cubic a b c d x = polynomial_value [a; b; c; d] x.
Proof.
  unfold compute_linear, compute_quadratic, compute_cubic,
    polynomial_value, np_polyval.
  repeat split; apply map_ext; intros xi; cbn; ring.
Qed.

Lemma compute_cubic_at (a b c d x : R) :
  py_index (compute_cubic a b c d [x]) 0 =
  Ret (a * x ^ 3 + b * x ^ 2 + c * x + d).
Proof. reflexivity. Qed.

(** The dotted curve of [plot_cubic], drawn from [cubic_derivative_coeffs],
    is the curve of the coefficients that [polynomial_derivative] computes
    for [[a; b; c; d]], the polynomial whose roots [find_critical_points]
    marks; and one more derivative gives [6ax + 2b]. *)
Theorem cubic_derivative_coeffs_spec (a b c d : R) (x : list R) :
  let da := fst (fst (cubic_derivative_coeffs a b c)) in
  let db := snd (fst (cubic_derivative_coeffs a b c)) in
  let dc := snd (cubic_derivative_coeffs a b c) in
  map (fun xi => da * xi ^ 2 + db * xi + dc) x =
    polynomial_value (polynomial_derivative [a; b; c; d]) x /\
  polynomial_value (polynomial_derivative (polynomial_derivative [a; b; c; d])) x =
    map (fun xi => 6 * a * xi + 2 * b) x.
Proof.
  cbn [cubic_derivative_coeffs fst snd].
  unfold polynomial_value, np_polyval.
  split; apply map_ext; intros xi; cbn; ring.
Qed.

(** When [cubic_inflection] answers with a point, the leading coefficient
    is not degenerate and the second derivative [6ax + 2b], which is the
    polynomial of [polynomial_derivative] applied twice, vanishes there;
    it answers [None] exactly when [|a| < 1e-12]. *)
Theorem cubic_inflection_spec (a b c d : R) :
  (forall xi, cubic_inflection a b = Ret (Some xi) ->
     ~ Rabs a < 1e-12 /\
     6 * a * xi + 2 * b = 0 /\
     horner (polynomial_derivative (polynomial_derivative [a; b; c; d])) xi = 0) /\
  (cubic_inflection a b = Ret None <-> Rabs a < 1e-12).
Proof.
  destruct (cubic_inflection_cases a b) as [H0 H1].
  destruct (Rlt_dec (Rabs a) 1e-12) as [Ha | Ha].
  - rewrite (H0 Ha). split.
    + intros xi E. discriminate E.
    + split; [intros _; exact Ha | reflexivity].
  - rewrite (H1 Ha).
    assert (Ha0 : a <> 0) by (apply (Rabs_big_nonzero a 1e-12); [lra | exact Ha]).
    split.
    + intros xi E. injection E as <-.
      assert (Hz : 6 * a * (- b / (3 * a)) + 2 * b = 0) by (field; exact Ha0).
      split; [exact Ha |]. split; [exact Hz |].
      rewrite <- Hz. cbn. ring.
    + split; [intros E; discriminate E | intros Hlt; contradiction].
Qed.

Lemma cubic_inflection_spec_witness :
  6 * 1 * (- 3 / (3 * 1)) + 2 * 3 = 0.
Proof.
  destruct (cubic_inflection_spec 1 3 0 0) as [H _].
  apply (H (- 3 / (3 * 1))).
  apply cubic_inflection_cases. rewrite Rabs_lt_iff. lra.
Defined.

(** ** find_critical_points and find_inflection_points *)

Lemma in_range_iff (lo v hi : R) : in_range lo v hi = true <-> lo <= v <= hi.
Proof.
  unfold in_range. destruct (Rle_dec lo v); [destruct (Rle_dec v hi) |];
    split; intros H; try discriminate H; try reflexivity; lra.
Qed.

Lemma all_zero_iff (l : list R) :
  all_zero l = true <-> Forall (fun c => c = 0) l.
Proof.
  unfold all_zero. rewrite forallb_forall, Forall_forall.
  split; intros H c Hc; specialize (H c Hc);
    destruct (Req_dec_T c 0); try assumption; try reflexivity;
    try discriminate H; contradiction.
Qed.

Lemma Sorted_Rle_filter (f : R -> bool) (l : list R) :
  Sorted Rle l -> Sorted Rle (filter f l).
Proof.
  intros Hs. apply StronglySorted_Sorted.
  apply Sorted_StronglySorted in Hs; [| intros x y z; apply Rle_trans].
  induction Hs as [| x l Hs IH Hall]; cbn; [constructor |].
  destruct (f x); [| exact IH].
  constructor; [exact IH |].
  apply Forall_forall. intros y Hy. apply filter_In in Hy.
  rewrite Forall_forall in Hall. apply Hall, Hy.
Qed.

Lemma polynomial_derivative_short (coeffs : list R) :
  (List.length coeffs <= 1)%nat -> polynomial_derivative coeffs = [0].
Proof.
  intros H. unfold polynomial_derivative.
  destruct (Nat.leb_spec (List.length coeffs) 1); [reflexivity | lia].
Qed.

Section CriticalPointsProperties.

Variable np_roots : list R -> list complex.

Lemma find_critical_points_flat (coeffs : list R) (x_range : R * R) :
  Forall (fun c => c = 0) (polynomial_derivative coeffs) ->
  find_critical_points np_roots coeffs x_range = [].
Proof.
  intros H. apply all_zero_iff in H.
  unfold find_critical_points. rewrite H. reflexivity.
Qed.

Lemma find_critical_points_sorted (coeffs : list R) (x_range : R * R) :
  Sorted Rle (find_critical_points np_roots coeffs x_range).
Proof.
  unfold find_critical_points.
  destruct (all_zero (polynomial_derivative coeffs)); [constructor |].
  apply Sorted_Rle_filter, sorted_Sorted.
Qed.

Lemma find_critical_points_in_range (coeffs : list R) (lo hi r : R) :
  In r (find_critical_points np_roots coeffs (lo, hi)) -> lo <= r <= hi.
Proof.
  unfold find_critical_points.
  destruct (all_zero (polynomial_derivative coeffs)); [intros [] |].
  cbn [fst snd]. rewrite filter_In, in_range_iff. tauto.
Qed.

(** The critical points come out ascending; a value is among them exactly
    when the derivative has a non-zero coefficient, the value is one of the
    real roots found for the derivative, and it lies in the closed range.
    A constant, or any polynomial whose derivative coefficients are all
    zero, has none, and the root finder is not consulted. *)
Theorem find_critical_points_spec (coeffs : list R) (lo hi : R) :
  let deriv := polynomial_derivative coeffs in
  let crit := find_critical_points np_roots coeffs (lo, hi) in
  Sorted Rle crit /\
  (forall r, In r crit <->
     ~ Forall (fun c => c = 0) deriv /\
     In r (find_real_roots np_roots deriv) /\ lo <= r <= hi) /\
  (Forall (fun c => c = 0) deriv -> crit = []) /\
  ((List.length coeffs <= 1)%nat -> crit = []).
Proof.
  intros deriv crit.
  split; [apply find_critical_points_sorted |].
  split; [| split].
  - intros r. unfold crit, find_critical_points. fold deriv. cbn [fst snd].
    destruct (all_zero deriv) eqn:Ez.
    + apply all_zero_iff in Ez.
      split; [intros [] | intros (Hn & _); contradiction].
    + assert (Hnz : ~ Forall (fun c => c = 0) deriv)
        by (intros H; apply all_zero_iff in H; congruence).
      rewrite filter_In, in_range_iff. tauto.
  - apply find_critical_points_flat.
  - intros Hlen. apply find_critical_points_flat.
    rewrite (polynomial_derivative_short _ Hlen). repeat constructor.
Qed.

(** The inflection points of a polynomial are the critical points of its
    derivative, ascending and inside the closed range; a polynomial of
    degree at most one (two coefficients or fewer) has none, whatever the
    root finder would say. *)
Theorem find_inflection_points_spec (coeffs : list R) (lo hi : R) :
  find_inflection_points np_roots coeffs (lo, hi) =
    find_critical_points np_roots (polynomial_derivative coeffs) (lo, hi) /\
  Sorted Rle (find_inflection_points np_roots coeffs (lo, hi)) /\
  (forall r, In r (find_inflection_points np_roots coeffs (lo, hi)) ->
             lo <= r <= hi) /\
  ((List.length coeffs <= 2)%nat ->
   find_inflection_points np_roots coeffs (lo, hi) = []).
Proof.
  assert (E : find_inflection_points np_roots coeffs (lo, hi) =
              find_critical_points np_roots (polynomial_derivative coeffs) (lo, hi))
    by reflexivity.
  rewrite E. split; [reflexivity |].
  split; [apply find_critical_points_sorted |]. split.
  - intros r. apply find_critical_points_in_range.
  - intros Hlen. apply find_critical_points_flat.
    destruct (le_lt_dec (List.length coeffs) 1) as [H1 | H1].
    + rewrite (polynomial_derivative_short _ H1). repeat constructor.
    + rewrite polynomial_derivative_short
        by (rewrite polynomial_derivative_length; lia).
      repeat constructor.
Qed.

End CriticalPointsProperties.

Lemma find_critical_points_spec_witness :
  find_critical_points linear_np_roots [7] (- 1, 1) = [].
Proof.
  destruct (find_critical_points_spec linear_np_roots [7] (- 1) 1)
    as (_ & _ & _ & Hc).
  apply Hc. cbn. lia.
Defined.

Lemma find_inflection_points_spec_witness :
  find_inflection_points linear_np_roots [2; 3] (- 1, 1) = [].
Proof.
  destruct (find_inflection_points_spec linear_np_roots [2; 3] (- 1) 1)
    as (_ & _ & _ & Hi).
  apply Hi. cbn. lia.
Defined.

(** ** The quadratic: vertex and roots *)

Lemma quadratic_complete_square (a b c x : R) :
  a <> 0 ->
  a * x ^ 2 + b * x + c =
  a * (x - - b / (2 * a)) ^ 2 - quadratic_discriminant a b c / (4 * a).
Proof.
  intros Ha. unfold quadratic_discriminant. field. exact Ha.
Qed.

(** Away from the degenerate band the vertex is the extremum of the
    parabola: the derivative [2ax + b] vanishes at its abscissa, its
    ordinate is the value of the curve there, [c - b^2/(4a)], and it bounds
    the curve from below when [a > 0] and from above when [a < 0]. *)
Theorem quadratic_vertex_extremum (a b c : R) :
  ~ Rabs a < 1e-12 ->
  exists xv yv,
    quadratic_vertex a b c = Ret (xv, yv) /\
    2 * a * xv + b = 0 /\
    yv = c - b ^ 2 / (4 * a) /\
    compute_quadratic a b c [xv] = [yv] /\
    (0 < a -> forall x, yv <= a * x ^ 2 + b * x + c) /\
    (a < 0 -> forall x, a * x ^ 2 + b * x + c <= yv).
Proof.
  intros Ha.
  assert (Ha0 : a <> 0) by (apply (Rabs_big_nonzero a 1e-12); [lra | exact Ha]).
  rewrite (quadratic_vertex_curved _ _ _ Ha).
  set (xv := - b / (2 * a)).
  eexists _, _. split; [reflexivity |].
  assert (Hy : a * xv ^ 2 + b * xv + c = c - b ^ 2 / (4 * a))
    by (unfold xv; field; exact Ha0).
  split; [unfold xv; field; exact Ha0 |].
  split; [exact Hy |]. split; [reflexivity |].
  assert (Hsq : forall x, a * x ^ 2 + b * x + c =
                          a * xv ^ 2 + b * xv + c + a * (x - xv) ^ 2).
  { intros x. rewrite Hy. unfold xv. field. exact Ha0. }
  split; intros Hsign x; rewrite (Hsq x);
    pose proof (pow2_ge_0 (x - xv)); nra.
Qed.

Lemma quadratic_vertex_extremum_witness :
  exists xv yv, quadratic_vertex 1 0 (- 4) = Ret (xv, yv) /\
                yv = - 4 - 0 ^ 2 / (4 * 1).
Proof.
  destruct (quadratic_vertex_extremum 1 0 (- 4)) as (xv & yv & E & _ & Hy & _).
  - rewrite Rabs_lt_iff. lra.
  - exists xv, yv. split; [exact E | exact Hy].
Defined.

Lemma two_roots_are_all (a b c lo hi x : R) :
  lo < hi ->
  a * lo ^ 2 + b * lo + c = 0 -> a * hi ^ 2 + b * hi + c = 0 ->
  a * x ^ 2 + b * x + c = 0 -> a <> 0 -> x = lo \/ x = hi.
Proof.
  intros Hlt Hlo Hhi Hx Ha.
  assert (Hsum : a * (lo + hi) + b = 0).
  { apply (Rmult_eq_reg_l (hi - lo)); [| lra]. nra. }
  assert (Hprod : (x - lo) * (a * (x - hi)) = 0) by nra.
  apply Rmult_integral in Hprod. destruct Hprod as [H | H]; [left; lra |].
  apply Rmult_integral in H. destruct H as [H | H]; [contradiction | right; lra].
Qed.

(** Outside the open band [-1e-10 < D < 0] the list [quadratic_roots]
    returns for a non-degenerate quadratic is exact: it is ascending and a
    number is in it if and only if it is a real root of [a x^2 + b x + c]. *)
Theorem quadratic_roots_exact (a b c : R) (n : nature) (roots : list R) :
  ~ Rabs a < 1e-12 ->
  quadratic_discriminant a b c >= 0 \/ quadratic_discriminant a b c <= - 1e-10 ->
  quadratic_roots a b c = Ret (n, roots) ->
  Sorted Rle roots /\
  (forall x, In x roots <-> a * x ^ 2 + b * x + c = 0).
Proof.
  intros Ha HD E.
  assert (Ha0 : a <> 0) by (apply (Rabs_big_nonzero a 1e-12); [lra | exact Ha]).
  destruct (quadratic_roots_classification a b c) as (_ & _ & Hpos & Hrep & Hneg).
  cbv zeta in Hpos, Hrep, Hneg.
  set (D := quadratic_discriminant a b c) in *.
  destruct (Rgt_dec D 0) as [Hgt | Hle].
  - destruct (Hpos Ha Hgt) as (lo & hi & E' & Hlt & Hlo & Hhi).
    rewrite E' in E. injection E as _ <-.
    split; [repeat constructor; lra |].
    intros x. split.
    + intros [<- | [<- | []]]; assumption.
    + intros Hx. destruct (two_roots_are_all a b c lo hi x Hlt Hlo Hhi Hx Ha0);
        subst; cbn; auto.
  - destruct HD as [HD | HD].
    + assert (HD0 : D = 0) by lra.
      rewrite (Hrep Ha ltac:(lra)) in E. injection E as _ <-.
      split; [repeat constructor |].
      intros x. rewrite (quadratic_complete_square a b c x Ha0). fold D.
      rewrite HD0. split.
      * intros [<- | []]. unfold Rdiv at 3. rewrite Rmult_0_l.
        replace (- b / (2 * a) - - b / (2 * a)) with 0 by lra. lra.
      * intros Hx. left.
        unfold Rdiv at 2 in Hx. rewrite Rmult_0_l, Rminus_0_r in Hx.
        apply Rmult_integral in Hx. destruct Hx as [Hx | Hx]; [contradiction |].
        assert (H0 : x - - b / (2 * a) = 0) by nra. lra.
    + destruct (Hneg Ha HD) as (re & im & E').
      rewrite E' in E. injection E as _ <-.
      split; [constructor |].
      intros x. split; [intros [] |].
      intros Hx. exfalso.
      assert (H4 : 4 * a * (a * x ^ 2 + b * x + c) = (2 * a * x + b) ^ 2 - D)
        by (unfold D, quadratic_discriminant; ring).
      rewrite Hx in H4. pose proof (pow2_ge_0 (2 * a * x + b)). lra.
Qed.

Lemma quadratic_roots_exact_witness :
  1 * (- - 4 / (2 * 1)) ^ 2 + - 4 * (- - 4 / (2 * 1)) + 4 = 0.
Proof.
  assert (Ha : ~ Rabs 1 < 1e-12) by (rewrite Rabs_lt_iff; lra).
  assert (HD : quadratic_discriminant 1 (- 4) 4 = 0)
    by (unfold quadratic_discriminant; lra).
  destruct (quadratic_roots_classification 1 (- 4) 4) as (_ & _ & _ & Hrep & _).
  destruct (quadratic_roots_exact 1 (- 4) 4 One_repeated_real_root
              [- - 4 / (2 * 1)]) as (_ & Hin).
  - exact Ha.
  - left. rewrite HD. lra.
  - apply Hrep; [exact Ha | cbv zeta; rewrite HD; lra].
  - apply Hin. left. reflexivity.
Defined.

(** Inside the band [-1e-10 < D < 0] the quadratic has no real root, yet
    [quadratic_roots] reports the abscissa of the vertex as a repeated
    root; the curve misses zero there by [-D/(4a)]. *)
Theorem quadratic_roots_tolerated_root (a b c : R) :
  ~ Rabs a < 1e-12 ->
  - 1e-10 < quadratic_discriminant a b c < 0 ->
  quadratic_roots a b c = Ret (One_repeated_real_root, [- b / (2 * a)]) /\
  (forall x, a * x ^ 2 + b * x + c <> 0) /\
  a * (- b / (2 * a)) ^ 2 + b * (- b / (2 * a)) + c =
    - quadratic_discriminant a b c / (4 * a).
Proof.
  intros Ha HD.
  assert (Ha0 : a <> 0) by (apply (Rabs_big_nonzero a 1e-12); [lra | exact Ha]).
  destruct (quadratic_roots_classification a b c) as (_ & _ & _ & Hrep & _).
  split; [apply Hrep; [exact Ha | cbv zeta; lra] |].
  split.
  - intros x Hx.
    assert (H4 : 4 * a * (a * x ^ 2 + b * x + c) =
                 (2 * a * x + b) ^ 2 - quadratic_discriminant a b c)
      by (unfold quadratic_discriminant; ring).
    rewrite Hx in H4. pose proof (pow2_ge_0 (2 * a * x + b)). lra.
  - unfold quadratic_discriminant. field. exact Ha0.
Qed.

Lemma quadratic_roots_tolerated_root_witness :
  quadratic_roots 1 0 1e-12 = Ret (One_repeated_real_root, [- 0 / (2 * 1)]).
Proof.
  apply (quadratic_roots_tolerated_root 1 0 1e-12).
  - rewrite Rabs_lt_iff. lra.
  - unfold quadratic_discriminant. lra.
Defined.

(** ** clip_y *)

Lemma clip_value_bounds (v y_max : R) :
  0 <= y_max -> - y_max <= Rmin (Rmax v (- y_max)) y_max <= y_max.
Proof.
  intros H. unfold Rmin, Rmax.
  destruct (Rle_dec v (- y_max)); destruct (Rle_dec _ y_max); lra.
Qed.

Lemma clip_value_inside (v y_max : R) :
  - y_max <= v <= y_max -> Rmin (Rmax v (- y_max)) y_max = v.
Proof.
  intros H. unfold Rmin, Rmax.
  destruct (Rle_dec v (- y_max)); destruct (Rle_dec _ y_max); lra.
Qed.

(** With a non-negative bound, [clip_y] keeps the length of the array,
    puts every entry inside [[-y_max, y_max]], leaves an entry that is
    already inside unchanged, and clipping twice is clipping once. *)
Theorem clip_y_spec (y : list R) (y_max : R) :
  0 <= y_max ->
  List.length (clip_y y y_max) = List.length y /\
  Forall (fun v => - y_max <= v <= y_max) (clip_y y y_max) /\
  (forall i, (i < List.length y)%nat -> - y_max <= nth i y 0 <= y_max ->
             nth i (clip_y y y_max) 0 = nth i y 0) /\
  clip_y (clip_y y y_max) y_max = clip_y y y_max.
Proof.
  intros Hmax. unfold clip_y, np_clip.
  split; [apply length_map |]. split; [| split].
  - apply Forall_map, Forall_forall. intros v _.
    apply clip_value_bounds, Hmax.
  - intros i Hi Hin.
    set (f := fun v => Rmin (Rmax v (- y_max)) y_max).
    rewrite (nth_indep _ 0 (f 0)) by (rewrite length_map; exact Hi).
    rewrite map_nth. apply clip_value_inside, Hin.
  - rewrite map_map. apply map_ext. intros v.
    apply clip_value_inside, clip_value_bounds, Hmax.
Qed.

Lemma clip_y_spec_witness :
  Forall (fun v => - clip_y_default <= v <= clip_y_default)
         (clip_y [2e6; 3; - 5e6] clip_y_default).
Proof.
  destruct (clip_y_spec [2e6; 3; - 5e6] clip_y_default) as (_ & H & _).
  - unfold clip_y_default. lra.
  - exact H.
Defined.

(** ** The ellipse *)

(** Every sample of [parametric_ellipse] lies on the curve
    [b^2 x^2 + a^2 y^2 = a^2 b^2], there are exactly [num] of them, and for
    [num >= 2] the first and the last sample are both the vertex [(a, 0)]:
    the curve is closed. *)
Theorem parametric_ellipse_on_curve (a b : R) (num : nat) :
  exists x y,
    parametric_ellipse a b (Z.of_nat num) = Ret (x, y) /\
    List.length x = num /\ List.length y = num /\
    (forall i, (i < num)%nat ->
       b ^ 2 * nth i x 0 ^ 2 + a ^ 2 * nth i y 0 ^ 2 = a ^ 2 * b ^ 2) /\
    ((1 <= num)%nat -> nth 0 x 0 = a /\ nth 0 y 0 = 0) /\
    ((2 <= num)%nat -> nth (num - 1) x 0 = a /\ nth (num - 1) y 0 = 0).
Proof.
  unfold parametric_ellipse.
  rewrite np_linspace_returns by lia. rewrite Nat2Z.id. cbn [bind].
  set (t := linspace_samples 0 (2 * PI) num).
  assert (Hlen : List.length t = num) by apply linspace_samples_length.
  assert (Hx : forall i, (i < num)%nat ->
             nth i (map (fun ti => a * cos ti) t) 0 = a * cos (nth i t 0)).
  { intros i Hi.
    rewrite (nth_indep _ 0 (a * cos 0)) by (rewrite length_map; lia).
    exact (map_nth (fun ti => a * cos ti) t 0 i). }
  assert (Hy : forall i, (i < num)%nat ->
             nth i (map (fun ti => b * sin ti) t) 0 = b * sin (nth i t 0)).
  { intros i Hi.
    rewrite (nth_indep _ 0 (b * sin 0)) by (rewrite length_map; lia).
    exact (map_nth (fun ti => b * sin ti) t 0 i). }
  eexists _, _. split; [reflexivity |].
  split; [rewrite length_map; exact Hlen |].
  split; [rewrite length_map; exact Hlen |].
  split; [| split].
  - intros i Hi. rewrite (Hx i Hi), (Hy i Hi).
    pose proof (sin2_cos2 (nth i t 0)) as Hsc. unfold Rsqr in Hsc. nra.
  - intros Hn. rewrite Hx, Hy by lia. unfold t.
    rewrite linspace_samples_nth by lia. cbn [INR].
    replace (0 + 0 * ((2 * PI - 0) / INR (num - 1))) with 0 by lra.
    rewrite cos_0, sin_0. split; lra.
  - intros Hn. rewrite Hx, Hy by lia. unfold t.
    rewrite linspace_samples_nth by lia.
    replace (0 + INR (num - 1) * ((2 * PI - 0) / INR (num - 1))) with (2 * PI)
      by (field; apply not_0_INR; lia).
    rewrite cos_2PI, sin_2PI. split; lra.
Qed.

Lemma parametric_ellipse_on_curve_witness :
  exists x y, parametric_ellipse 5 3 800 = Ret (x, y) /\
              nth 799 x 0 = 5 /\ nth 799 y 0 = 0.
Proof.
  destruct (parametric_ellipse_on_curve 5 3 800)
    as (x & y & E & _ & _ & _ & _ & Hlast).
  exists x, y. split; [exact E |]. apply Hlast. lia.
Defined.

Lemma dict_get_ellipse_regular (a b : R) (props : dict) :
  ~ Rabs a < 1e-9 -> ~ Rabs b < 1e-9 ->
  ellipse_properties a b = Ret props ->
  dict_get props "semi_major" = Some (VFloat (Rmax (Rabs a) (Rabs b))) /\
  dict_get props "semi_minor" = Some (VFloat (Rmin (Rabs a) (Rabs b))) /\
  dict_get props "eccentricity" =
    Some (VFloat (sqrt (1 - (Rmin (Rabs a) (Rabs b) / Rmax (Rabs a) (Rabs b)) ^ 2))) /\
  dict_get props "focal_distance" =
    Some (VFloat (sqrt (Rmax (Rabs a ^ 2 - Rabs b ^ 2) 0))).
Proof.
  intros Ha Hb E. rewrite (ellipse_properties_regular _ _ Ha Hb) in E.
  injection E as <-. repeat split.
Qed.

(** For a regular ellipse the eccentricity lies in [[0, 1)] and is zero
    exactly for a circle, [|a| = |b|].  When the major axis lies along x,
    [|a| >= |b|], the focal distance [c] satisfies
    [c^2 = major^2 - minor^2] and [c = eccentricity * major]. *)
Theorem ellipse_geometry (a b : R) (props : dict) :
  ~ Rabs a < 1e-9 -> ~ Rabs b < 1e-9 ->
  ellipse_properties a b = Ret props ->
  exists major minor ecc c,
    dict_get props "semi_major" = Some (VFloat major) /\
    dict_get props "semi_minor" = Some (VFloat minor) /\
    dict_get props "eccentricity" = Some (VFloat ecc) /\
    dict_get props "focal_distance" = Some (VFloat c) /\
    0 < minor <= major /\
    0 <= ecc < 1 /\
    (ecc = 0 <-> Rabs a = Rabs b) /\
    (Rabs a >= Rabs b ->
     c ^ 2 = major ^ 2 - minor ^ 2 /\ c = ecc * major).
Proof.
  intros Ha Hb E.
  destruct (dict_get_ellipse_regular a b props Ha Hb E) as (HM & Hm & He & Hc).
  set (major := Rmax (Rabs a) (Rabs b)) in *.
  set (minor := Rmin (Rabs a) (Rabs b)) in *.
  exists major, minor, (sqrt (1 - (minor / major) ^ 2)),
    (sqrt (Rmax (Rabs a ^ 2 - Rabs b ^ 2) 0)).
  do 4 (split; [assumption |]).
  assert (Hmm : 0 < minor <= major)
    by (unfold minor, major, Rmin, Rmax;
        destruct (Rle_dec (Rabs a) (Rabs b)); lra).
  assert (Hq : 0 < minor / major <= 1).
  { split; [apply Rdiv_lt_0_compat; lra |].
    apply (Rmult_le_reg_r major); [lra |].
    unfold Rdiv. rewrite Rmult_assoc, Rinv_l by lra. lra. }
  assert (Hq2 : 0 < (minor / major) ^ 2 <= 1) by nra.
  split; [exact Hmm |]. split; [| split].
  - split; [apply sqrt_pos |].
    rewrite <- sqrt_1 at 2. apply sqrt_lt_1_alt. lra.
  - split.
    + intros H0. apply sqrt_eq_0 in H0; [| lra].
      assert (Hq1 : minor / major = 1) by nra.
      assert (Heq : minor = major).
      { apply (Rmult_eq_compat_r major) in Hq1.
        unfold Rdiv in Hq1. rewrite Rmult_assoc, Rinv_l in Hq1 by lra. lra. }
      unfold minor, major, Rmin, Rmax in Heq.
      destruct (Rle_dec (Rabs a) (Rabs b)); lra.
    + intros Hab.
      assert (Heq : minor = major)
        by (unfold minor, major, Rmin, Rmax;
            destruct (Rle_dec (Rabs a) (Rabs b)); lra).
      rewrite Heq. unfold Rdiv. rewrite Rinv_r by lra.
      replace (1 - 1 ^ 2) with 0 by lra. apply sqrt_0.
  - intros Hab.
    assert (HMa : major = Rabs a)
      by (unfold major, Rmax; destruct (Rle_dec (Rabs a) (Rabs b)); lra).
    assert (Hmb : minor = Rabs b)
      by (unfold minor, Rmin; destruct (Rle_dec (Rabs a) (Rabs b)); lra).
    assert (Hdiff : 0 <= Rabs a ^ 2 - Rabs b ^ 2) by nra.
    rewrite Rmax_left by exact Hdiff.
    rewrite HMa, Hmb. split.
    + rewrite <- Rsqr_pow2. unfold Rsqr. apply sqrt_sqrt, Hdiff.
    + assert (Hpos : 0 <= 1 - (Rabs b / Rabs a) ^ 2)
        by (rewrite HMa, Hmb in Hq2; lra).
      symmetry.
      replace (sqrt (1 - (Rabs b / Rabs a) ^ 2) * Rabs a)
        with (sqrt (1 - (Rabs b / Rabs a) ^ 2) * sqrt (Rabs a * Rabs a))
        by (rewrite sqrt_square by lra; reflexivity).
      rewrite <- sqrt_mult; [f_equal; field; lra | exact Hpos | nra].
Qed.

Lemma ellipse_geometry_witness :
  exists props major ecc c,
    ellipse_properties 5 3 = Ret props /\
    dict_get props "semi_major" = Some (VFloat major) /\
    dict_get props "eccentricity" = Some (VFloat ecc) /\
    dict_get props "focal_distance" = Some (VFloat c) /\
    c = ecc * major.
Proof.
  assert (H5 : ~ Rabs 5 < 1e-9) by (rewrite Rabs_lt_iff; lra).
  assert (H3 : ~ Rabs 3 < 1e-9) by (rewrite Rabs_lt_iff; lra).
  destruct (ellipse_geometry 5 3 _ H5 H3 (ellipse_properties_regular 5 3 H5 H3))
    as (major & minor & ecc & c & HM & _ & He & Hc & _ & _ & _ & Hx).
  eexists _, major, ecc, c. split; [apply (ellipse_properties_regular 5 3 H5 H3) |].
  split; [exact HM |]. split; [exact He |]. split; [exact Hc |].
  apply Hx. rewrite (Rabs_pos_val 5), (Rabs_pos_val 3) by lra. lra.
Defined.



(** ** The trigonometric curve *)

Lemma compute_trig_cases (A B C : R) (func : string) (x y : list R) :
  compute_trig A B C func x = Ret y ->
  (B = 0 /\ y = np_zeros_like x) \/
  (B <> 0 /\ func = "sin"%string /\
   y = scale A (np_sin (map (fun xi => B * xi + C) x))) \/
  (B <> 0 /\ func = "cos"%string /\
   y = scale A (np_cos (map (fun xi => B * xi + C) x))).
Proof.
  unfold compute_trig. destruct (Req_dec_T B 0) as [HB | HB].
  - intros E. injection E as <-. left. split; [exact HB | reflexivity].
  - destruct (String.eqb func "sin") eqn:Es.
    + apply String.eqb_eq in Es. intros E. injection E as <-.
      right. left. repeat split; assumption.
    + destruct (String.eqb func "cos") eqn:Ec; [| intros E; discriminate E].
      apply String.eqb_eq in Ec. intros E. injection E as <-.
      right. right. repeat split; assumption.
Qed.

(** Whatever [compute_trig] returns has one value per sample point and
    stays within the amplitude: [|y| <= |A|] at every point. *)
Theorem compute_trig_bounded (A B C : R) (func : string) (x y : list R) :
  compute_trig A B C func x = Ret y ->
  List.length y = List.length x /\
  Forall (fun v => Rabs v <= Rabs A) y.
Proof.
  intros E.
  destruct (compute_trig_cases A B C func x y E)
    as [(_ & ->) | [(_ & _ & ->) | (_ & _ & ->)]];
    unfold np_zeros_like, scale, np_sin, np_cos;
    rewrite ?length_map; (split; [reflexivity |]);
    rewrite ?Forall_map; apply Forall_forall; intros v _.
  - rewrite Rabs_R0. apply Rabs_pos.
  - rewrite Rabs_mult. pose proof (Rabs_pos A).
    assert (Rabs (sin (B * v + C)) <= 1)
      by (apply Rabs_le; pose proof (SIN_bound (B * v + C)); lra).
    nra.
  - rewrite Rabs_mult. pose proof (Rabs_pos A).
    assert (Rabs (cos (B * v + C)) <= 1)
      by (apply Rabs_le; pose proof (COS_bound (B * v + C)); lra).
    nra.
Qed.

Lemma compute_trig_bounded_witness :
  Forall (fun v => Rabs v <= Rabs 2)
         (scale 2 (np_sin (map (fun xi => 1 * xi + 0) [0; 1]))).
Proof.
  apply (compute_trig_bounded 2 1 0 "sin" [0; 1]).
  apply compute_trig_sin. lra.
Defined.

Lemma sin_shift_2PI (t : R) : sin (t + 2 * PI) = sin t /\ sin (t - 2 * PI) = sin t.
Proof.
  split.
  - rewrite <- (sin_period t 1). f_equal. cbn [INR]. lra.
  - rewrite <- (sin_period (t - 2 * PI) 1). f_equal. cbn [INR]. lra.
Qed.

Lemma cos_shift_2PI (t : R) : cos (t + 2 * PI) = cos t /\ cos (t - 2 * PI) = cos t.
Proof.
  split.
  - rewrite <- (cos_period t 1). f_equal. cbn [INR]. lra.
  - rewrite <- (cos_period (t - 2 * PI) 1). f_equal. cbn [INR]. lra.
Qed.

Lemma period_shifts_argument (B C xi : R) :
  B <> 0 ->
  B * (xi + 2 * PI / Rabs B) + C = B * xi + C + 2 * PI \/
  B * (xi + 2 * PI / Rabs B) + C = B * xi + C - 2 * PI.
Proof.
  intros HB. unfold Rabs. destruct (Rcase_abs B); [right | left]; field; lra.
Qed.

(** Away from the flat band the bundle of [trig_properties] describes the
    curve of [compute_trig]: the period is positive and is the inverse of
    the frequency, shifting every sample point by the period leaves the
    curve unchanged, and at the phase shift the sine curve is 0 and the
    cosine curve is [A]. *)
Theorem trig_properties_describe_curve (A B C : R) (props : dict) :
  ~ Rabs B < 1e-12 ->
  trig_properties A B C = Ret props ->
  exists period frequency phase_shift,
    dict_get props "period" = Some (VFloat period) /\
    dict_get props "frequency" = Some (VFloat frequency) /\
    dict_get props "phase_shift" = Some (VFloat phase_shift) /\
    0 < period /\ period * frequency = 1 /\
    (forall func x,
       compute_trig A B C func (map (fun xi => xi + period) x) =
       compute_trig A B C func x) /\
    compute_trig A B C "sin" [phase_shift] = Ret [0] /\
    compute_trig A B C "cos" [phase_shift] = Ret [A].
Proof.
  intros HB E.
  assert (HB0 : B <> 0) by (apply (Rabs_big_nonzero B 1e-12); [lra | exact HB]).
  rewrite (trig_properties_periodic _ _ _ HB) in E. injection E as <-.
  pose proof PI_RGT_0 as Hpi.
  assert (HaB : 0 < Rabs B) by (apply Rabs_pos_lt, HB0).
  exists (2 * PI / Rabs B), (Rabs B / (2 * PI)), (- C / B).
  do 3 (split; [reflexivity |]).
  split; [apply Rdiv_lt_0_compat; lra |].
  split; [field; lra |].
  split; [| split].
  - intros func x. unfold compute_trig.
    destruct (Req_dec_T B 0); [contradiction |].
    rewrite map_map.
    assert (Hs : map (fun xi => sin (B * (xi + 2 * PI / Rabs B) + C)) x =
                 map (fun xi => sin (B * xi + C)) x).
    { apply map_ext. intros xi.
      destruct (period_shifts_argument B C xi HB0) as [-> | ->];
        apply sin_shift_2PI. }
    assert (Hc : map (fun xi => cos (B * (xi + 2 * PI / Rabs B) + C)) x =
                 map (fun xi => cos (B * xi + C)) x).
    { apply map_ext. intros xi.
      destruct (period_shifts_argument B C xi HB0) as [-> | ->];
        apply cos_shift_2PI. }
    unfold np_sin, np_cos. rewrite !map_map. cbv beta.
    rewrite Hs, Hc. reflexivity.
  - rewrite (compute_trig_sin _ _ _ _ HB0). cbn.
    replace (B * (- C / B) + C) with 0 by (field; exact HB0).
    rewrite sin_0, Rmult_0_r. reflexivity.
  - rewrite (compute_trig_cos _ _ _ _ HB0). cbn.
    replace (B * (- C / B) + C) with 0 by (field; exact HB0).
    rewrite cos_0, Rmult_1_r. reflexivity.
Qed.

Lemma trig_properties_describe_curve_witness :
  exists props period,
    trig_properties 2 1 0 = Ret props /\
    dict_get props "period" = Some (VFloat period) /\ 0 < period.
Proof.
  assert (HB : ~ Rabs 1 < 1e-12) by (rewrite Rabs_lt_iff; lra).
  destruct (trig_properties_describe_curve 2 1 0 _ HB
              (trig_properties_periodic 2 1 0 HB))
    as (period & frequency & ps & Hp & _ & _ & Hpos & _).
  eexists _, period. split; [apply (trig_properties_periodic 2 1 0 HB) |].
  split; [exact Hp | exact Hpos].
Defined.

(** ** The animated figure *)

Lemma phi_ends : phi 0 = 0 /\ phi 59 = 2 * PI.
Proof.
  unfold phi. split; [cbn [INR]; lra |].
  replace (INR 59) with 59 by (rewrite INR_IZR_INZ; reflexivity). lra.
Qed.

Lemma fn_shift_2PI (func : string) (l : list R) :
  (if String.eqb func "sin" then np_sin else np_cos) (map (fun t => t + 2 * PI) l) =
  (if String.eqb func "sin" then np_sin else np_cos) l.
Proof.
  destruct (String.eqb func "sin"); unfold np_sin, np_cos;
    rewrite map_map; apply map_ext; intros t;
    [apply sin_shift_2PI | apply cos_shift_2PI].
Qed.

(** The phase sweep closes on itself: the animated figure has 60 frames,
    every frame is one line trace over the sample points [x], and the first
    and the last frame both show the curve of the figure's own data,
    [A * fn(B x + C)], where [fn] is the sine for the tag ['sin'] and the
    cosine for every other tag. *)
Theorem animated_plot_sweep_closes (A B C : R) (func : string) (x : list R) :
  exists fig,
    _animated_plot A B C func x = Ret fig /\
    let y0 := scale A ((if String.eqb func "sin" then np_sin else np_cos)
                         (map (fun xi => B * xi + C) x)) in
    fig_data fig = [Scatter_lines x y0] /\
    List.length (fig_frames fig) = 60%nat /\
    (forall i frame, nth_error (fig_frames fig) i = Some frame ->
       exists y, frame = [Scatter_lines x y] /\ List.length y = List.length x) /\
    nth_error (fig_frames fig) 0 = Some [Scatter_lines x y0] /\
    nth_error (fig_frames fig) 59 = Some [Scatter_lines x y0].
Proof.
  destruct (animated_plot_frame A B C func x 0 ltac:(lia)) as (fig & E & Hlen & H0).
  exists fig. split; [exact E |]. cbv zeta.
  assert (Hframe : forall i, (i < 60)%nat ->
            nth_error (fig_frames fig) i =
            Some [Scatter_lines x
                    (scale A ((if String.eqb func "sin" then np_sin else np_cos)
                                (map (fun xi => B * xi + C + phi i) x)))]).
  { intros i Hi.
    destruct (animated_plot_frame A B C func x i Hi) as (fig' & E' & _ & Hi').
    rewrite E in E'. injection E' as <-. exact Hi'. }
  split.
  { unfold _animated_plot in E. cbv zeta in E.
    rewrite np_linspace_returns in E by lia. cbn [bind] in E.
    injection E as <-. reflexivity. }
  split; [exact Hlen |]. split; [| split].
  - intros i frame Hi.
    assert (Hlt : (i < 60)%nat)
      by (rewrite <- Hlen; apply nth_error_Some; congruence).
    rewrite (Hframe i Hlt) in Hi. injection Hi as <-.
    eexists. split; [reflexivity |].
    unfold scale. rewrite length_map.
    destruct (String.eqb func "sin"); unfold np_sin, np_cos;
      rewrite !length_map; reflexivity.
  - rewrite (Hframe 0%nat ltac:(lia)). destruct phi_ends as [-> _].
    replace (map (fun xi => B * xi + C + 0) x)
      with (map (fun xi => B * xi + C) x)
      by (apply map_ext; intros xi; lra).
    reflexivity.
  - rewrite (Hframe 59%nat ltac:(lia)). destruct phi_ends as [_ ->].
    do 3 f_equal.
    rewrite <- (fn_shift_2PI func (map (fun xi => B * xi + C) x)).
    rewrite map_map. reflexivity.
Qed.

(** ** The figures of the family modules *)

Lemma safe_linspace_returns (lo hi : R) (num : Z) :
  (0 <= num)%Z ->
  exists x, safe_linspace lo hi num = Ret x /\ List.length x = Z.to_nat num.
Proof.
  intros H. unfold safe_linspace. rewrite np_linspace_returns by exact H.
  eexists. split; [reflexivity | apply linspace_samples_length].
Qed.

Lemma compute_trig_returns (A B C : R) (func : string) (x : list R) :
  B = 0 \/ func = "sin"%string \/ func = "cos"%string ->
  exists y, compute_trig A B C func x = Ret y /\ List.length y = List.length x.
Proof.
  intros H. destruct (Req_dec_T B 0) as [-> | HB].
  - rewrite compute_trig_zero_frequency. eexists. split; [reflexivity |].
    apply length_map.
  - destruct H as [H | [-> | ->]]; [contradiction | |].
    + rewrite (compute_trig_sin _ _ _ _ HB). eexists. split; [reflexivity |].
      unfold scale, np_sin. rewrite !length_map. reflexivity.
    + rewrite (compute_trig_cos _ _ _ _ HB). eexists. split; [reflexivity |].
      unfold scale, np_cos. rewrite !length_map. reflexivity.
Qed.

Lemma tag_cases (B : R) (func : string) :
  (B = 0 \/ func = "sin"%string \/ func = "cos"%string) \/
  (B <> 0 /\ func <> "sin"%string /\ func <> "cos"%string).
Proof.
  destruct (Req_dec_T B 0); [tauto |].
  destruct (string_dec func "sin"); [tauto |].
  destruct (string_dec func "cos"); tauto.
Qed.

Lemma trig_phase_shift_entry (A B C : R) :
  exists props,
    trig_properties A B C = Ret props /\
    dict_getitem props "phase_shift" =
    Ret (VFloat (if Rlt_dec (Rabs B) 1e-12 then 0 else - C / B)).
Proof.
  destruct (Rlt_dec (Rabs B) 1e-12) as [HB | HB].
  - rewrite (trig_properties_flat _ _ _ HB). eexists. split; reflexivity.
  - rewrite (trig_properties_periodic _ _ _ HB). eexists. split; reflexivity.
Qed.

(** [plot_trig] evaluates the curve before it looks at the animation flag,
    so in both modes it raises exactly when [compute_trig] does: [B] not
    zero and an unknown tag.  Otherwise the static figure holds the curve
    over 1000 sample points and, when the reported phase shift lies in the
    range, one marker at the phase shift on the curve; the animated figure
    is the one [_animated_plot] builds over the same sample points. *)
Theorem plot_trig_spec (A B C : R) (func : string) (lo hi : R) :
  let ps := if Rlt_dec (Rabs B) 1e-12 then 0 else - C / B in
  (forall anim, raises (plot_trig A B C func (lo, hi) anim) <->
     B <> 0 /\ func <> "sin"%string /\ func <> "cos"%string) /\
  (B = 0 \/ func = "sin"%string \/ func = "cos"%string ->
   exists x y y_ps,
     safe_linspace lo hi 1000 = Ret x /\ List.length x = 1000%nat /\
     compute_trig A B C func x = Ret y /\
     compute_trig A B C func [ps] = Ret [y_ps] /\
     plot_trig A B C func (lo, hi) true = _animated_plot A B C func x /\
     exists fig,
       plot_trig A B C func (lo, hi) false = Ret fig /\
       fig_frames fig = [] /\
       fig_data fig =
         Scatter_lines x y ::
         (if in_range lo ps hi
          then [Scatter_marker ps y_ps "triangle-right"] else [])).
Proof.
  intros ps.
  destruct (safe_linspace_returns lo hi 1000 ltac:(lia)) as (x & Ex & Hx).
  assert (Hgood : B = 0 \/ func = "sin"%string \/ func = "cos"%string ->
    exists y y_ps,
      compute_trig A B C func x = Ret y /\
      compute_trig A B C func [ps] = Ret [y_ps] /\
      plot_trig A B C func (lo, hi) true = _animated_plot A B C func x /\
      exists fig,
        plot_trig A B C func (lo, hi) false = Ret fig /\
        fig_frames fig = [] /\
        fig_data fig =
          Scatter_lines x y ::
          (if in_range lo ps hi
           then [Scatter_marker ps y_ps "triangle-right"] else [])).
  { intros Hok.
    destruct (compute_trig_returns A B C func x Hok) as (y & Ey & _).
    destruct (compute_trig_returns A B C func [ps] Hok) as (yp & Eyp & Hyp).
    destruct yp as [| y_ps [| ? ?]]; try discriminate Hyp.
    destruct (trig_phase_shift_entry A B C) as (props & Eprops & Eps).
    exists y, y_ps. split; [exact Ey |]. split; [exact Eyp |].
    unfold plot_trig. cbn [fst snd]. rewrite Ex. cbn [bind].
    rewrite Ey. cbn [bind]. split; [reflexivity |].
    rewrite Eprops. cbn [bind]. rewrite Eps. cbn [bind as_float].
    fold ps. destruct (in_range lo ps hi).
    - rewrite Eyp. cbn [bind py_index nth_error].
      eexists. split; [reflexivity |]. split; reflexivity.
    - eexists. split; [reflexivity |]. split; reflexivity. }
  split.
  - intros anim. destruct (tag_cases B func) as [Hok | Hbad].
    + split; [| intros (HB & Hs & Hc); destruct Hok as [? | [? | ?]]; contradiction].
      intros [e He]. exfalso.
      destruct (Hgood Hok) as (y & y_ps & _ & _ & Eanim & fig & Efig & _).
      destruct anim.
      * rewrite Eanim in He.
        destruct (animated_plot_frame A B C func x 0 ltac:(lia)) as (f & Ef & _).
        rewrite Ef in He. discriminate He.
      * rewrite Efig in He. discriminate He.
    + split; [intros _; exact Hbad |]. intros _.
      destruct Hbad as (HB & Hs & Hc).
      unfold plot_trig. cbn [fst snd]. rewrite Ex. cbn [bind].
      rewrite (compute_trig_unknown _ _ _ _ _ HB Hs Hc). cbn [bind].
      eexists. reflexivity.
  - intros Hok. destruct (Hgood Hok) as (y & y_ps & H).
    exists x, y, y_ps. split; [exact Ex |]. split; [exact Hx | exact H].
Qed.

Lemma plot_trig_spec_witness :
  exists x, safe_linspace (- 1) 1 1000 = Ret x /\
            plot_trig 2 1 0 "sin" (- 1, 1) true = _animated_plot 2 1 0 "sin" x.
Proof.
  destruct (plot_trig_spec 2 1 0 "sin" (- 1) 1) as (_ & H).
  destruct H as (x & y & y_ps & Ex & _ & _ & _ & Eanim & _).
  - right. left. reflexivity.
  - exists x. split; [exact Ex | exact Eanim].
Defined.

Lemma for_each_root_markers (roots : list R) (lo hi : R) (fig : figure) :
  for_each roots
    (fun fig r =>
       if in_range lo r hi
       then Ret (add_scatter_point fig r 0 "x")
       else Ret fig)
    fig =
  Ret (Figure (fig_data fig ++
               map (fun r => Scatter_marker r 0 "x")
                   (filter (fun r => in_range lo r hi) roots))
              (fig_frames fig)).
Proof.
  revert fig. induction roots as [| r roots IH]; intros fig; cbn [for_each].
  - cbn. rewrite app_nil_r. destruct fig; reflexivity.
  - cbn [filter]. destruct (in_range lo r hi); cbn [bind].
    + rewrite IH. cbn. rewrite <- app_assoc. reflexivity.
    + apply IH.
Qed.

(** The figure of [plot_linear] holds the line over 1000 sample points and
    the y-intercept [(0, c)]; the x-intercept is marked exactly when the
    slope is outside the flat band and [-c/m] lies in the range, and the
    marked point is on the line at height 0. *)
Theorem plot_linear_spec (m c lo hi : R) :
  exists fig x,
    plot_linear m c (lo, hi) = Ret fig /\
    safe_linspace lo hi 1000 = Ret x /\ List.length x = 1000%nat /\
    fig_data fig =
      Scatter_lines x (compute_linear m c x) ::
      Scatter_marker 0 c "diamond" ::
      (if Rlt_dec (Rabs m) 1e-12 then []
       else if in_range lo (- c / m) hi
            then [Scatter_marker (- c / m) 0 "x"] else []) /\
    (~ Rabs m < 1e-12 -> compute_linear m c [- c / m] = [0]).
Proof.
  destruct (safe_linspace_returns lo hi 1000 ltac:(lia)) as (x & Ex & Hx).
  unfold plot_linear. cbn [fst snd]. rewrite Ex. cbn [bind].
  destruct (Rlt_dec (Rabs m) 1e-12) as [Hm | Hm].
  - rewrite (linear_properties_flat _ _ Hm). cbn [bind].
    eexists _, x. split; [reflexivity |]. split; [reflexivity |].
    split; [exact Hx |]. split; [reflexivity | intros H; contradiction].
  - rewrite (linear_properties_sloped _ _ Hm). cbn [bind].
    match goal with
    | |- context [dict_getitem ?d ?k] =>
        change (dict_getitem d k) with (Ret (A := value) (VFloat (- c / m)))
    end.
    cbn [bind as_float].
    assert (Hm0 : m <> 0) by (apply (Rabs_big_nonzero m 1e-12); [lra | exact Hm]).
    assert (Hzero : compute_linear m c [- c / m] = [0])
      by (cbn; f_equal; field; exact Hm0).
    destruct (in_range lo (- c / m) hi);
      eexists _, x; (split; [reflexivity |]); (split; [reflexivity |]);
      (split; [exact Hx |]); (split; [reflexivity | intros _; exact Hzero]).
Qed.

Lemma plot_linear_spec_witness :
  compute_linear 2 (- 4) [- - 4 / 2] = [0].
Proof.
  destruct (plot_linear_spec 2 (- 4) (- 10) 10) as (fig & x & _ & _ & _ & _ & H).
  apply H. rewrite Rabs_lt_iff. lra.
Defined.


Section PolynomialFiguresProperties.

Variable np_roots : list R -> list complex.

(** The figure of [plot_polynomial] holds the curve over 1200 sample
    points, every value clipped into [[-1e6, 1e6]] (the default bound of
    [clip_y]), followed by one marker
    at height 0 for each real root in the range; the markers come in
    ascending order of abscissa.  It never raises. *)
Theorem plot_polynomial_spec (coeffs : list R) (lo hi : R) :
  exists fig x y,
    plot_polynomial np_roots coeffs (lo, hi) = Ret fig /\
    safe_linspace lo hi 1200 = Ret x /\
    y = clip_y (polynomial_value coeffs x) clip_y_default /\
    List.length x = 1200%nat /\ List.length y = 1200%nat /\
    Forall (fun v => - clip_y_default <= v <= clip_y_default) y /\
    let marked := filter (fun r => in_range lo r hi)
                         (find_real_roots np_roots coeffs) in
    fig_data fig = Scatter_lines x y :: map (fun r => Scatter_marker r 0 "x") marked /\
    Sorted Rle marked /\
    Forall (fun r => lo <= r <= hi) marked.
Proof.
  destruct (safe_linspace_returns lo hi 1200 ltac:(lia)) as (x & Ex & Hx).
  unfold plot_polynomial. cbn [fst snd]. rewrite Ex. cbn [bind].
  rewrite for_each_root_markers.
  eexists _, x, (clip_y (polynomial_value coeffs x) clip_y_default).
  split; [reflexivity |]. split; [reflexivity |]. split; [reflexivity |].
  split; [exact Hx |].
  split; [unfold clip_y, np_clip, polynomial_value, np_polyval;
          rewrite !length_map; exact Hx |].
  split.
  { unfold clip_y, np_clip. apply Forall_map, Forall_forall. intros v _.
    apply clip_value_bounds. unfold clip_y_default. lra. }
  cbv zeta. split; [reflexivity |].
  split; [apply Sorted_Rle_filter, sorted_Sorted |].
  apply Forall_forall. intros r Hr. apply filter_In in Hr.
  apply in_range_iff, Hr.
Qed.

End PolynomialFiguresProperties.

Lemma for_each_critical_markers (a b c d : R) (crit : list R) (fig : figure) :
  for_each crit
    (fun fig xc =>
       yc <- py_index (compute_cubic a b c d [xc]) 0 ;;
       Ret (add_scatter_point fig xc yc "triangle-up"))
    fig =
  Ret (Figure (fig_data fig ++
               map (fun xc => Scatter_marker xc
                                (a * xc ^ 3 + b * xc ^ 2 + c * xc + d)
                                "triangle-up")
                   crit)
              (fig_frames fig)).
Proof.
  revert fig. induction crit as [| xc crit IH]; intros fig; cbn [for_each].
  - cbn. rewrite app_nil_r. destruct fig; reflexivity.
  - rewrite compute_cubic_at. cbn [bind]. rewrite IH.
    cbn. rewrite <- app_assoc. reflexivity.
Qed.

Section CubicFigureProperties.

Variable np_roots : list R -> list complex.

(** The figure of [plot_cubic] never raises and holds, in this order: the
    cubic and the curve of [3a x^2 + 2b x + c], both over 1000 sample
    points and clipped to the default bound; one marker on the unclipped
    cubic for each critical point found in the range, in ascending order;
    and the inflection point [(-b/(3a), f(-b/(3a)))] when [a] is outside
    the degenerate band and the point lies in the range. *)
Theorem plot_cubic_spec (a b c d lo hi : R) :
  let f := fun t => a * t ^ 3 + b * t ^ 2 + c * t + d in
  let crit := find_critical_points np_roots [a; b; c; d] (lo, hi) in
  exists fig x,
    plot_cubic np_roots a b c d (lo, hi) = Ret fig /\
    safe_linspace lo hi 1000 = Ret x /\ List.length x = 1000%nat /\
    fig_data fig =
      [ Scatter_lines x (clip_y (compute_cubic a b c d x) clip_y_default);
        Scatter_lines x
          (clip_y (map (fun xi => 3 * a * xi ^ 2 + 2 * b * xi + c) x)
                  clip_y_default) ]
      ++ map (fun xc => Scatter_marker xc (f xc) "triangle-up") crit
      ++ (if Rlt_dec (Rabs a) 1e-12 then []
          else if in_range lo (- b / (3 * a)) hi
               then [Scatter_marker (- b / (3 * a)) (f (- b / (3 * a))) "diamond"]
               else []) /\
    Sorted Rle crit /\
    Forall (fun xc => lo <= xc <= hi) crit.
Proof.
  intros f crit.
  destruct (safe_linspace_returns lo hi 1000 ltac:(lia)) as (x & Ex & Hx).
  destruct (cubic_inflection_cases a b) as [Hflat Hreg].
  assert (Hcrit : Sorted Rle crit /\ Forall (fun xc => lo <= xc <= hi) crit).
  { split; [apply find_critical_points_sorted |].
    apply Forall_forall. intros r. apply find_critical_points_in_range. }
  unfold plot_cubic. cbn [fst snd]. rewrite Ex. cbn [bind].
  cbn [cubic_derivative_coeffs]. rewrite for_each_critical_markers.
  cbn [bind]. fold crit.
  destruct (Rlt_dec (Rabs a) 1e-12) as [Ha | Ha].
  - rewrite (Hflat Ha). cbn [bind].
    eexists _, x. split; [reflexivity |]. split; [reflexivity |].
    split; [exact Hx |]. split; [| exact Hcrit].
    unfold add_trace, add_curve, base_figure. cbn [fig_data app].
    rewrite app_nil_r. reflexivity.
  - rewrite (Hreg Ha). cbn [bind].
    destruct (in_range lo (- b / (3 * a)) hi).
    + rewrite compute_cubic_at. cbn [bind].
      eexists _, x. split; [reflexivity |]. split; [reflexivity |].
      split; [exact Hx |]. split; [| exact Hcrit].
      unfold add_scatter_point, add_trace, add_curve, base_figure.
      cbn [fig_data app]. reflexivity.
    + eexists _, x. split; [reflexivity |]. split; [reflexivity |].
      split; [exact Hx |]. split; [| exact Hcrit].
      unfold add_trace, add_curve, base_figure. cbn [fig_data app].
      rewrite app_nil_r. reflexivity.
Qed.

End CubicFigureProperties.

(** ** More on the linear and quadratic bundles *)

(** The bundle of [linear_properties] always carries the same five keys
    in the same order, with [is_vertical] false.  In the flat band the
    x-intercept is [None] and [parallel_to_x] is set; outside it
    [parallel_to_x] stays false and the x-intercept is the zero of
    [m x + c]. *)
Theorem linear_properties_bundle (m c : R) :
  exists props,
    linear_properties m c = Ret props /\
    map fst props =
      [ "slope"; "y_intercept"; "x_intercept"; "parallel_to_x";
        "is_vertical" ]%string /\
    dict_get props "slope" = Some (VFloat m) /\
    dict_get props "y_intercept" = Some (VFloat c) /\
    dict_get props "is_vertical" = Some (VBool false) /\
    (Rabs m < 1e-12 ->
     dict_get props "x_intercept" = Some VNone /\
     dict_get props "parallel_to_x" = Some (VBool true)) /\
    (~ Rabs m < 1e-12 ->
     dict_get props "parallel_to_x" = Some (VBool false) /\
     exists xi, dict_get props "x_intercept" = Some (VFloat xi) /\
                m * xi + c = 0).
Proof.
  destruct (Rlt_dec (Rabs m) 1e-12) as [Hm | Hm].
  - rewrite (linear_properties_flat _ _ Hm). eexists.
    split; [reflexivity |]. do 4 (split; [reflexivity |]).
    split; [intros _; split; reflexivity | intros H; contradiction].
  - rewrite (linear_properties_sloped _ _ Hm). eexists.
    split; [reflexivity |]. do 4 (split; [reflexivity |]).
    split; [intros H; contradiction |].
    intros _. split; [reflexivity |].
    exists (- c / m). split; [reflexivity |].
    assert (Hm0 : m <> 0) by (apply (Rabs_big_nonzero m 1e-12); [lra | exact Hm]).
    field. exact Hm0.
Qed.

Lemma linear_properties_bundle_witness :
  exists props xi,
    linear_properties 2 (- 4) = Ret props /\
    dict_get props "x_intercept" = Some (VFloat xi) /\ 2 * xi + - 4 = 0.
Proof.
  destruct (linear_properties_bundle 2 (- 4)) as (props & E & _ & _ & _ & _ & _ & H).
  destruct H as (_ & xi & Hxi & Hz); [rewrite Rabs_lt_iff; lra |].
  exists props, xi. split; [exact E |]. split; [exact Hxi | exact Hz].
Defined.

(** When [quadratic_roots] returns two roots for a non-degenerate
    quadratic, they are distinct and the abscissa of the vertex returned by
    [quadratic_vertex] is their midpoint: the axis of symmetry lies half
    way between the roots. *)
Theorem quadratic_vertex_between_roots (a b c lo hi : R) (n : nature) (v : R * R) :
  ~ Rabs a < 1e-12 ->
  quadratic_roots a b c = Ret (n, [lo; hi]) ->
  quadratic_vertex a b c = Ret v ->
  fst v = (lo + hi) / 2 /\ lo < fst v < hi.
Proof.
  intros Ha E Ev.
  assert (Ha0 : a <> 0) by (apply (Rabs_big_nonzero a 1e-12); [lra | exact Ha]).
  rewrite (quadratic_vertex_curved _ _ _ Ha) in Ev. injection Ev as <-.
  cbn [fst].
  destruct (quadratic_roots_classification a b c) as (_ & _ & _ & Hrep & Hneg).
  cbv zeta in Hrep, Hneg.
  destruct (Rgt_dec (quadratic_discriminant a b c) 0) as [HD | HD].
  - destruct (quadratic_roots_positive_D a b c Ha HD) as (lo' & hi' & E' & Hlt & P).
    rewrite E' in E. injection E as _ -> ->.
    set (s := sqrt (quadratic_discriminant a b c)) in P.
    assert (Hsum : lo + hi = - b / a).
    { apply Permutation_length_2 in P.
      destruct P as [[<- <-] | [<- <-]]; field; exact Ha0. }
    assert (Emid : - b / (2 * a) = (lo + hi) / 2)
      by (rewrite Hsum; field; exact Ha0).
    rewrite Emid. split; [reflexivity | lra].
  - exfalso.
    destruct (Rle_lt_dec (quadratic_discriminant a b c) (- 1e-10)) as [Hl | Hl].
    + destruct (Hneg Ha Hl) as (re & im & E'). rewrite E' in E. discriminate E.
    + rewrite (Hrep Ha ltac:(lra)) in E. discriminate E.
Qed.

Lemma quadratic_vertex_between_roots_witness :
  exists lo hi v,
    quadratic_vertex 1 0 (- 4) = Ret v /\ fst v = (lo + hi) / 2 /\ lo < fst v < hi.
Proof.
  assert (Ha : ~ Rabs 1 < 1e-12) by (rewrite Rabs_lt_iff; lra).
  destruct (quadratic_roots_positive_D 1 0 (- 4) Ha) as (lo & hi & E & _);
    [unfold quadratic_discriminant; lra |].
  exists lo, hi, (- 0 / (2 * 1), 1 * (- 0 / (2 * 1)) ^ 2 + 0 * (- 0 / (2 * 1)) + - 4).
  split; [apply (quadratic_vertex_curved 1 0 (- 4) Ha) |].
  apply (quadratic_vertex_between_roots 1 0 (- 4) lo hi _ _ Ha E).
  apply (quadratic_vertex_curved 1 0 (- 4) Ha).
Defined.
